(** * ESPEI parameter selection: a shallow embedding of [paramselect.py]

    The development follows the Python module function by function.
    Python exceptions are values of [exn]; a function that may raise
    returns a [result].  Library calls (NumPy, scikit-learn, SymPy, TinyDB)
    are modelled by their documented behaviour on the inputs that the
    module feeds them; each such model is marked where it is introduced. *)

From Stdlib Require Import String Ascii QArith.
From stdpp Require Import base numbers list strings gmap.

Set Default Proof Using "Type".

(** ** Exceptions and the error monad *)

Inductive exn : Type :=
  | IndexError
  | ValueError
  | TypeError
  | KeyError.

Inductive result (A : Type) : Type :=
  | Ok (a : A)
  | Raise (e : exn).
Arguments Ok {A} a.
Arguments Raise {A} e.

#[global] Instance result_ret : MRet result := fun _ a => Ok a.
#[global] Instance result_bind : MBind result := fun _ _ k m =>
  match m with
  | Ok a => k a
  | Raise e => Raise e
  end.

Fixpoint rmapM {A B} (f : A -> result B) (l : list A) : result (list B) :=
  match l with
  | [] => Ok []
  | a :: l' => b ← f a; bs ← rmapM f l'; Ok (b :: bs)
  end.

Fixpoint rfoldM {A S} (f : S -> A -> result S) (l : list A) (s : S) : result S :=
  match l with
  | [] => Ok s
  | a :: l' => s' ← f s a; rfoldM f l' s'
  end.

(** ** Configurations

    An occupant of a sublattice is a species name ([str]), or a sequence of
    species names held in a Python [tuple] or in a Python [list].  Python
    keeps the two sequence types apart ([('B','C') != ['B','C']]), and
    [canonicalize] converts one into the other, so the embedding keeps
    them apart as well. *)

Inductive occupant : Type :=
  | Species (s : string)
  | Tup (l : list string)
  | Lst (l : list string).

#[global] Instance occupant_eq_dec : EqDecision occupant.
Proof. solve_decision. Defined.

Definition configuration := list occupant.

(** [tuple(y)] for a list occupant, identity otherwise: the branch
    [if isinstance(subgroup[subl_idx], list)] of [canonicalize]. *)
Definition tuple_of_list (o : occupant) : occupant :=
  match o with
  | Lst l => Tup l
  | _ => o
  end.

(** ** Sorting and [canonical_sort_key] ([paramselect.py], lines 95-103)

    The characters of a Python [str], each as a one-character [str]:
    what iterating over a string yields. *)
Fixpoint chars (s : string) : list string :=
  match s with
  | EmptyString => []
  | String c s' => String c EmptyString :: chars s'
  end.

(** [canonical_sort_key(x)]: every element [i] of [x] that is not a tuple
    or a list becomes the one-tuple [(i,)].  Applied to an occupant, the
    elements of a sequence occupant are its species names and the elements
    of a [str] occupant are its characters.  A one-tuple of a string is
    written as that string; tuples of equal length compare as their
    components do. *)
Definition canonical_sort_key (x : occupant) : list string :=
  match x with
  | Species s => chars s
  | Tup l => l
  | Lst l => l
  end.

(** Python's [<] on lists: lexicographic, a proper prefix is smaller. *)
Fixpoint list_ltb {A} (ltb : A -> A -> bool) (a b : list A) : bool :=
  match a, b with
  | [], [] => false
  | [], _ :: _ => true
  | _ :: _, [] => false
  | x :: a', y :: b' =>
      if ltb x y then true
      else if ltb y x then false
      else list_ltb ltb a' b'
  end.

Definition key_ltb : list string -> list string -> bool := list_ltb String.ltb.

Section Sorted.
Context {A K : Type} (key : A -> K) (ltb : K -> K -> bool).

(** [sorted(l, key=key)].  Python's sort is stable and compares keys with
    [<] only; on a strict weak order every stable sort returns the same
    list, here computed by insertion from the right. *)
Fixpoint insert_by (x : A) (l : list A) : list A :=
  match l with
  | [] => [x]
  | y :: l' => if ltb (key y) (key x) then y :: insert_by x l' else x :: y :: l'
  end.

Fixpoint sorted (l : list A) : list A :=
  match l with
  | [] => []
  | x :: l' => insert_by x (sorted l')
  end.

(** No element is followed by one with a smaller key. *)
Fixpoint nondecreasing (l : list A) : Prop :=
  match l with
  | [] => True
  | x :: l' =>
      match l' with
      | [] => True
      | y :: _ => ltb (key y) (key x) = false
      end /\ nondecreasing l'
  end.
End Sorted.

Definition sorted_nat : list nat -> list nat := sorted id Nat.ltb.
Definition sorted_occ : list occupant -> list occupant :=
  sorted canonical_sort_key key_ltb.

(** ** [canonicalize] ([paramselect.py], lines 106-134) *)

(** [configuration[idx]], raising [IndexError] beyond the end.  An index
    is a position counted from the start. *)
Definition getitem {A} (l : list A) (idx : nat) : result A :=
  match l !! idx with
  | Some a => Ok a
  | None => Raise IndexError
  end.

(** [l[idx] = v], raising [IndexError] beyond the end. *)
Definition setitem {A} (l : list A) (idx : nat) (v : A) : result (list A) :=
  if decide (idx < length l) then Ok (<[idx := v]> l) else Raise IndexError.

(** The body of the loop over [equivalent_sublattices] for one [subl]:
    read the occupants of [configuration] at [sorted(subl)], sort them by
    [canonical_sort_key], and write them back, lists turned into tuples,
    at the same positions of [canonicalized]. *)
Definition canon_step (configuration : configuration)
    (canonicalized : list occupant) (subl : list nat) : result (list occupant) :=
  vals ← rmapM (getitem configuration) (sorted_nat subl);
  rfoldM (fun canon '(conf_idx, v) => setitem canon conf_idx (tuple_of_list v))
         (zip (sorted_nat subl) (sorted_occ vals)) canonicalized.

Definition canonicalize (configuration : configuration)
    (equivalent_sublattices : option (list (list nat))) : result (list occupant) :=
  match equivalent_sublattices with
  | None => Ok configuration
  | Some symm => rfoldM (canon_step configuration) symm configuration
  end.

(** A symmetry is well formed when its index sets are sets and are pairwise
    disjoint: no position occurs twice in the whole symmetry. *)
Definition disjoint_index_sets (symmetry : option (list (list nat))) : Prop :=
  match symmetry with
  | None => True
  | Some symm => NoDup (concat symm)
  end.

(** The occupants of a configuration at the positions of an index set, in
    the order of the positions. *)
Definition occupants_at (c : configuration) (subl : list nat) : result (list occupant) :=
  rmapM (getitem c) (sorted_nat subl).

(** [c'] is [c] with occupants exchanged inside the index sets of a
    symmetry: the positions outside the symmetry hold what they held, and
    every index set holds the same occupants in some order. *)
Definition exchanged_within (symm : list (list nat)) (c c' : configuration) : Prop :=
  length c' = length c
  /\ (forall i, i ∉ concat symm -> c' !! i = c !! i)
  /\ Forall (fun subl => exists vals vals',
                occupants_at c subl = Ok vals
                /\ occupants_at c' subl = Ok vals'
                /\ Permutation vals' vals) symm.

(** The sort keys tell the occupants of a configuration apart: two
    occupants with one key differ at most in one being a list and the other
    a tuple of the same species. *)
Definition keys_tell_apart (c : configuration) : Prop :=
  forall a b, a ∈ c -> b ∈ c ->
    canonical_sort_key a = canonical_sort_key b -> tuple_of_list a = tuple_of_list b.

(** ** [_generate_symmetric_group] ([paramselect.py], lines 516-541) *)

(** [_list_to_tuple(x)]: every list or tuple occupant becomes a tuple. *)
Definition _list_to_tuple (x : configuration) : configuration := tuple_of_list <$> x.

(** [np.roll(a, 1)] on one axis: the last entry moves to the front. *)
Definition roll1 {A} (l : list A) : list A :=
  match last l with
  | Some x => x :: removelast l
  | None => []
  end.

(** Rolling the other way: the first entry moves to the end. *)
Definition roll_left {A} (l : list A) : list A :=
  match l with
  | [] => []
  | x :: l' => l' ++ [x]
  end.

(** The local function [permute], on the rows of a two-dimensional array:
    roll the first row, then roll the rows. *)
Definition permute (x : list (list nat)) : list (list nat) :=
  match x with
  | [] => []
  | r :: rs => roll1 (roll1 r :: rs)
  end.

(** [np.array(symmetry, dtype=np.object)] is two-dimensional exactly when
    the rows have one common length. *)
Definition rectangular (symm : list (list nat)) : bool :=
  match symm with
  | [] => true
  | r :: rs => forallb (fun r' => length r' =? length r) rs
  end.

(** What a position of [new_conf] holds.  [np.array(configurations[0],
    dtype=np.object)] is a one-dimensional array of Python objects, unless
    the configuration is not empty and all its occupants are tuples of one
    common length: then NumPy builds a two-dimensional array of strings, an
    assignment [new_conf[i] = v] copies the sequence [v] into row [i], and
    [tuple(new_conf)] is a tuple of rows, each an [ndarray]. *)
Inductive conf_item : Type :=
  | Item (o : occupant)
  | Row (l : list string).

#[global] Instance conf_item_eq_dec : EqDecision conf_item.
Proof. solve_decision. Defined.

Definition is_tuple_of_length (m : nat) (o : occupant) : bool :=
  match o with
  | Tup l => length l =? m
  | _ => false
  end.

Definition two_dimensional (c : configuration) : bool :=
  match c with
  | [] => false
  | Tup l :: c' => forallb (is_tuple_of_length (length l)) c'
  | _ :: _ => false
  end.

Definition members (o : occupant) : list string :=
  match o with
  | Species s => [s]
  | Tup l | Lst l => l
  end.

Definition np_array_conf (c : configuration) : list conf_item :=
  if two_dimensional c then (fun o => Row (members o)) <$> c else Item <$> c.

(** [new_conf[conf_idx] = v] on that array. *)
Definition np_setitem (two_d : bool) (new_conf : list conf_item) (conf_idx : nat)
    (v : occupant) : result (list conf_item) :=
  setitem new_conf conf_idx (if two_d then Row (members v) else Item v).

(** Python can hash a string and a tuple of strings; it cannot hash a list
    or an [ndarray]. *)
Definition hashable (i : conf_item) : bool :=
  match i with
  | Item (Species _) | Item (Tup _) => true
  | Item (Lst _) | Row _ => false
  end.

Definition item_key (i : conf_item) : list string :=
  match i with
  | Item (Species s) => [s]
  | Item (Tup l) | Item (Lst l) | Row l => l
  end.

(** [canonical_sort_key] applied to a whole configuration: one tuple per
    occupant. *)
Definition configuration_sort_key (x : list conf_item) : list (list string) :=
  item_key <$> x.

Definition configuration_ltb : list (list string) -> list (list string) -> bool :=
  list_ltb key_ltb.

(** The body of the [while] loop: the configuration re-indexed by the
    current [permutation]. *)
Definition permuted_configuration (configuration : configuration)
    (symmetry permutation : list (list nat)) : result (list conf_item) :=
  let first := _list_to_tuple configuration in
  subgroups ← rmapM (fun subl => rmapM (getitem configuration) subl) permutation;
  rfoldM (fun new_conf '(subl, subgroup) =>
            rfoldM (fun new_conf '(subl_idx, conf_idx) =>
                      v ← getitem subgroup subl_idx;
                      np_setitem (two_dimensional first) new_conf conf_idx v)
                   (imap pair subl) new_conf)
         (zip symmetry subgroups) (np_array_conf first).

(** The [while] loop.  Its condition applies [permute] to [permutation] in
    place and compares the outcome with [symmetry]; [fuel] bounds the
    number of times the condition is evaluated, and [None] is an exhausted
    bound. *)
Fixpoint symmetric_walk (fuel : nat) (configuration : configuration)
    (symmetry permutation : list (list nat)) (configurations : list (list conf_item))
    : option (result (list (list conf_item))) :=
  match fuel with
  | 0 => None
  | S fuel' =>
      let permutation' := permute permutation in
      if decide (symmetry = permutation') then Some (Ok configurations)
      else
        match permuted_configuration configuration symmetry permutation' with
        | Ok new_conf =>
            symmetric_walk fuel' configuration symmetry permutation'
                           (configurations ++ [new_conf])
        | Raise e => Some (Raise e)
        end
  end.

(** [sorted(set(configurations), key=canonical_sort_key)].  Building the
    set hashes every member.  The members of the result are what matters;
    members with equal keys come in the iteration order of the set, taken
    here as the order of first occurrence. *)
Definition sorted_set (configurations : list (list conf_item))
    : result (list (list conf_item)) :=
  if forallb (forallb hashable) configurations
  then Ok (sorted configuration_sort_key configuration_ltb (remove_dups configurations))
  else Raise TypeError.

(** [_generate_symmetric_group(configuration, symmetry)].  With [symmetry]
    absent, [np.array(None, dtype=np.object)] has no dimension and
    [len(x)] in [permute] raises [TypeError].  On rows of different lengths
    the first pass of the loop body pairs a row of [symmetry] with the
    subgroup of a shorter row and [subgroup[subl_idx]] raises
    [IndexError]. *)
Definition _generate_symmetric_group_fuel (fuel : nat) (configuration : configuration)
    (symmetry : option (list (list nat))) : option (result (list (list conf_item))) :=
  match symmetry with
  | None => Some (Raise TypeError)
  | Some symm =>
      if rectangular symm then
        match symmetric_walk fuel configuration symm symm
                             [Item <$> _list_to_tuple configuration] with
        | Some (Ok configurations) => Some (sorted_set configurations)
        | Some (Raise e) => Some (Raise e)
        | None => None
        end
      else Some (Raise IndexError)
  end.

(** Enough fuel for every rectangular symmetry: the walk is back at its
    start after each row has been rolled once around. *)
Definition walk_bound (symm : list (list nat)) : nat :=
  S (length symm * length (default [] (head symm))).

Definition _generate_symmetric_group (configuration : configuration)
    (symmetry : option (list (list nat))) : option (result (list (list conf_item))) :=
  _generate_symmetric_group_fuel (walk_bound (default [] symmetry)) configuration symmetry.

(** ** Dataset records and [_get_data] ([paramselect.py], lines 137-186) *)

(** A site fraction entry of [sublattice_occupancies]: a number, or a list
    of numbers on a sublattice with an interaction. *)
Inductive site_fraction : Type :=
  | Fraction (y : Q)
  | Fractions (ys : list Q).

(** [conditions.T] in a dataset file is a number or a list of numbers. *)
Inductive temperatures : Type :=
  | T_number (t : Q)
  | T_list (ts : list Q).

(** [np.atleast_1d]. *)
Definition atleast_1d (T : temperatures) : list Q :=
  match T with
  | T_number t => [t]
  | T_list ts => ts
  end.

(** The [values] array.  Its last axis runs over the configuration
    instances and the axis before over the temperatures; the axes in front
    (pressure) are kept as one list of planes, written [...] in the
    subscripts of the source. *)
Record ndarray : Type := mk_ndarray {
  axis_T : nat;
  axis_conf : nat;
  planes : list (list (list Q));
}.

(** The planes have the shape the array declares. *)
Definition well_shaped (a : ndarray) : Prop :=
  Forall (fun plane => length plane = axis_T a
                       /\ Forall (fun row => length row = axis_conf a) plane)
         (planes a).

Record solver : Type := mk_solver {
  mode : option string;
  sublattice_configurations : list configuration;
  sublattice_occupancies : option (list (list site_fraction));
}.

Record dataset : Type := mk_dataset {
  output : string;
  components : list string;
  phases : list string;
  ds_solver : solver;
  conditions_T : temperatures;
  values : ndarray;
}.

(** The double nearest to the literal [298.15]. *)
Definition T_floor : Q := 2622555134571315 # 8796093022208.

(** [t >= 298.15]. *)
Definition at_least_T_floor (t : Q) : bool := Qle_bool T_floor t.

(** [a[mask]] along one axis. *)
Fixpoint mask_select {A} (mask : list bool) (l : list A) : list A :=
  match mask, l with
  | b :: mask', x :: l' => if b then x :: mask_select mask' l' else mask_select mask' l'
  | _, _ => []
  end.

(** [np.arange(n)[mask]]: the positions where the mask holds. *)
Definition mask_positions (mask : list bool) : list nat :=
  mask_select mask (seq 0 (length mask)).

(** [a[..., idxs]]: the entries of the last axis at [idxs]. *)
Definition take_last_axis (idxs : list nat) (a : ndarray) : result ndarray :=
  if forallb (fun i => i <? axis_conf a) idxs
  then Ok (mk_ndarray (axis_T a) (length idxs)
             ((fun plane : list (list Q) =>
                 (fun row : list Q => omap (fun i => row !! i) idxs) <$> plane)
              <$> planes a))
  else Raise IndexError.

(** [a[..., mask, :]]: NumPy requires the mask to be as long as the axis. *)
Definition mask_T_axis (mask : list bool) (a : ndarray) : result ndarray :=
  if decide (length mask = axis_T a)
  then Ok (mk_ndarray (length (mask_select mask mask)) (axis_conf a)
             (fmap (mask_select mask) (planes a)))
  else Raise IndexError.

(** [mask[idxs]]-free form of [np.array(l, dtype=np.object)[idxs].tolist()]. *)
Definition take_items {A} (idxs : list nat) (l : list A) : result (list A) :=
  rmapM (getitem l) idxs.

(** [canonicalize(a, symmetry) == canonicalize(b, symmetry)]. *)
Definition same_canonical_form (a b : configuration)
    (symmetry : option (list (list nat))) : result bool :=
  ca ← canonicalize a symmetry;
  cb ← canonicalize b symmetry;
  Ok (bool_decide (ca = cb)).

(** [_symmetry_filter(x, config, symmetry)]. *)
Fixpoint any_matching (config : configuration) (symmetry : option (list (list nat)))
    (data_configs : list configuration) : result bool :=
  match data_configs with
  | [] => Ok false
  | data_config :: rest =>
      same ← same_canonical_form config data_config symmetry;
      if same : bool then Ok true else any_matching config symmetry rest
  end.

Definition _symmetry_filter (x : solver) (config : configuration)
    (symmetry : option (list (list nat))) : result bool :=
  match mode x with
  | None => Raise KeyError
  | Some m =>
      if decide (m = "manual") then
        first ← getitem (sublattice_configurations x) 0;
        if decide (length config ≠ length first) then Ok false
        else any_matching config symmetry (sublattice_configurations x)
      else Ok false
  end.

(** The query of [datasets.search]: the four tests joined by [&], which
    evaluates its right operand only when the left one holds. *)
Definition query (comps : list string) (phase_name : string)
    (configuration : configuration) (symmetry : option (list (list nat)))
    (prop : string) (record : dataset) : result bool :=
  if negb (bool_decide (output record = prop)) then Ok false
  else if negb (bool_decide (components record = comps)) then Ok false
  else
    sym ← _symmetry_filter (ds_solver record) configuration symmetry;
    if negb sym then Ok false
    else Ok (bool_decide (phases record = [phase_name])).

Fixpoint search (q : dataset -> result bool) (datasets : list dataset)
    : result (list dataset) :=
  match datasets with
  | [] => Ok []
  | record :: rest =>
      hit ← q record;
      found ← search q rest;
      Ok (if hit : bool then record :: found else found)
  end.

(** The body of the loop over [desired_data]. *)
Definition select_data (configuration : configuration)
    (symmetry : option (list (list nat))) (data : dataset) : result dataset :=
  let confs := sublattice_configurations (ds_solver data) in
  matching ← rmapM (fun sblconf => same_canonical_form sblconf configuration symmetry) confs;
  let matching_configs := mask_positions matching in
  values1 ← take_last_axis matching_configs (values data);
  confs' ← take_items matching_configs confs;
  occupancies' ←
    match sublattice_occupancies (ds_solver data) with
    | None => Ok None
    | Some occ => occ' ← take_items matching_configs occ; Ok (Some occ')
    end;
  let temp_filter := at_least_T_floor <$> atleast_1d (conditions_T data) in
  values2 ← mask_T_axis temp_filter values1;
  Ok (mk_dataset (output data) (components data) (phases data)
        (mk_solver (mode (ds_solver data)) (_list_to_tuple <$> confs') occupancies')
        (T_list (mask_select temp_filter (atleast_1d (conditions_T data))))
        values2).

Definition _get_data (comps : list string) (phase_name : string)
    (configuration : configuration) (symmetry : option (list (list nat)))
    (datasets : list dataset) (prop : string) : result (list dataset) :=
  desired_data ← search (query comps phase_name configuration symmetry prop) datasets;
  rmapM (select_data configuration symmetry) desired_data.

(** A record with four temperatures, two of them below the floor. *)
Definition heat_capacity_record : dataset :=
  mk_dataset "CPM_FORM" ["A"; "B"] ["LIQUID"]
    (mk_solver (Some "manual") [[Species "A"]; [Species "B"]] None)
    (T_list [250; 300; 200; 400]%Q)
    (mk_ndarray 4 2 [[[1; 2]; [3; 4]; [5; 6]; [7; 8]]%Q]).

(** A record of entropies whose solver block has no ['mode']. *)
Definition entropy_record_without_mode : dataset :=
  mk_dataset "SM_FORM" ["A"; "B"] ["LIQUID"]
    (mk_solver None [[Species "A"]] None)
    (T_list [300]%Q)
    (mk_ndarray 1 1 [[[1]]%Q]).

(** ** Dictionaries

    A Python [dict] (or [OrderedDict]) keeps one value per key, in the
    order in which the keys were first inserted. *)

Section Dict.
Context {K V : Type} `{EqDecision K}.

Fixpoint dict_set (d : list (K * V)) (k : K) (v : V) : list (K * V) :=
  match d with
  | [] => [(k, v)]
  | (k', v') :: d' => if decide (k' = k) then (k, v) :: d' else (k', v') :: dict_set d' k v
  end.

Fixpoint dict_get (d : list (K * V)) (k : K) : option V :=
  match d with
  | [] => None
  | (k', v') :: d' => if decide (k' = k) then Some v' else dict_get d' k
  end.

(** [d.update(items)], also [OrderedDict(items)] from the empty dict. *)
Definition dict_update (d : list (K * V)) (items : list (K * V)) : list (K * V) :=
  foldl (fun d '(k, v) => dict_set d k v) d items.
End Dict.

(** ** [_fit_parameters] ([paramselect.py], lines 189-224)

    Numbers are NumPy doubles, a type [F] whose arithmetic and order are
    parameters here, as are the two library calls: [np.log] and the
    least-squares solver behind [LinearRegression(fit_intercept=False)]
    (with no intercept, [normalize] has no effect). *)

Section FitParameters.
Context {F feature : Type} `{EqDecision feature}.
Variables (zero : F) (add sub mul : F -> F -> F) (of_int : nat -> F).
Variables (ltb : F -> F -> bool) (isnan : F -> bool).
Variable log : F -> F.
(** [clf.fit(X, y).coef_]. *)
Variable lstsq : list (list F) -> list F -> list F.

(** [feature_matrix[:, :num_params]]. *)
Definition first_columns (num_params : nat) (feature_matrix : list (list F))
  : list (list F) := take num_params <$> feature_matrix.

(** [np.dot(row, coef)]. *)
Definition dot (row coef : list F) : F :=
  foldl add zero (zip_with mul row coef).

(** [np.square(np.dot(current_matrix, coef) - data_quantities).sum()]. *)
Definition residual_sum_of_squares (current_matrix : list (list F))
    (coef data_quantities : list F) : F :=
  foldl add zero
    (zip_with (fun row y => let r := sub (dot row coef) y in mul r r)
              current_matrix data_quantities).

(** [2*num_params + current_matrix.shape[-2] * np.log(rss)]. *)
Definition aic (num_params rows : nat) (rss : F) : F :=
  add (of_int (2 * num_params)) (mul (of_int rows) (log rss)).

Definition coefficients (feature_matrix : list (list F)) (data_quantities : list F)
    (num_params : nat) : list F :=
  lstsq (first_columns num_params feature_matrix) data_quantities.

Definition score (feature_matrix : list (list F)) (data_quantities : list F)
    (num_params : nat) : F :=
  let current_matrix := first_columns num_params feature_matrix in
  aic num_params (length current_matrix)
      (residual_sum_of_squares current_matrix
         (coefficients feature_matrix data_quantities num_params) data_quantities).

(** [np.argmin] on a non-empty sequence, as NumPy scans it: the running
    minimum moves to a later entry only when that entry is smaller or is
    a NaN, and the scan stops at a NaN. *)
Fixpoint argmin_scan (scores : list F) (i : nat) (mp : F) (min_ind : nat) : nat :=
  match scores with
  | [] => min_ind
  | s :: scores' =>
      if isnan s then i
      else if ltb s mp then argmin_scan scores' (S i) s i
      else argmin_scan scores' (S i) mp min_ind
  end.

Definition argmin (scores : list F) : result nat :=
  match scores with
  | [] => Raise ValueError
  | s :: scores' => if isnan s then Ok 0 else Ok (argmin_scan scores' 1 s 0)
  end.

(** [results[num_params - 1, :num_params] = clf.coef_], with NumPy's
    broadcast of a single coefficient. *)
Definition store_coefficients (results : list (list F)) (num_params : nat)
    (coef : list F) : result (list (list F)) :=
  row ← getitem results (num_params - 1);
  if decide (length coef = length (take num_params row)) then
    Ok (<[num_params - 1 := coef ++ drop num_params row]> results)
  else if decide (length coef = 1) then
    Ok (<[num_params - 1 :=
            replicate (length (take num_params row)) (default zero (head coef))
            ++ drop num_params row]> results)
  else Raise ValueError.

(** The number of columns, [feature_matrix.shape[-1]], is passed along
    with the rows: an array with no rows still has its columns. *)
Definition _fit_parameters (columns : nat) (feature_matrix : list (list F))
    (data_quantities : list F) (feature_tuple : list feature)
    : result (list (feature * F)) :=
  let n := length feature_tuple in
  results ← rfoldM (fun results num_params =>
                      store_coefficients results num_params
                        (coefficients feature_matrix data_quantities num_params))
                   (seq 1 columns) (replicate n (replicate n zero));
  best ← argmin (score feature_matrix data_quantities <$> seq 1 columns);
  row ← getitem results best;
  Ok (dict_update [] (zip feature_tuple row)).
End FitParameters.

(** *** A small instance of the numeric interface

    Integers with minus infinity, where the logarithm of zero is minus
    infinity as for doubles, and a solver that scales the first column. *)

Inductive xnum : Type :=
  | NegInf
  | Num (z : Z).

Definition xadd (a b : xnum) : xnum :=
  match a, b with
  | Num x, Num y => Num (x + y)
  | _, _ => NegInf
  end.

Definition xsub (a b : xnum) : xnum :=
  match a, b with
  | Num x, Num y => Num (x - y)
  | _, _ => NegInf
  end.

Definition xmul (a b : xnum) : xnum :=
  match a, b with
  | Num x, Num y => Num (x * y)
  | _, _ => NegInf
  end.

Definition xltb (a b : xnum) : bool :=
  match a, b with
  | NegInf, Num _ => true
  | Num x, Num y => (x <? y)%Z
  | _, NegInf => false
  end.

Definition xlog (a : xnum) : xnum :=
  match a with
  | Num x => if (x <=? 0)%Z then NegInf else Num (Z.log2 x)
  | NegInf => NegInf
  end.

Definition xof_int (n : nat) : xnum := Num (Z.of_nat n).

Definition scale_first_column (X : list (list xnum)) (y : list xnum) : list xnum :=
  match X, y with
  | (Num x :: row) :: _, Num y0 :: _ => Num (y0 / x) :: (const (Num 0) <$> row)
  | _, _ => const (Num 0) <$> default [] (head X)
  end.

Definition xfit := @_fit_parameters xnum string _ (Num 0) xadd xsub xmul xof_int
                     xltb (fun _ => false) xlog scale_first_column.

(** Least squares on a matrix whose columns are orthonormal: coefficient
    [j] is the product of column [j] with the response. *)
Definition orthonormal_lstsq (X : list (list xnum)) (y : list xnum) : list xnum :=
  imap (fun j _ =>
          foldl xadd (Num 0)
            (zip_with xmul ((fun row => default (Num 0) (row !! j)) <$> X) y))
       (default [] (head X)).

(** ** [fit_formation_energy] ([paramselect.py], lines 297-399)

    SymPy expressions are values of a type [expr] with a decidable equality
    (SymPy compares and hashes expressions structurally) and a product.
    What the module computes through SymPy substitution and evaluation is
    left to three parameters: the feature matrix of
    [_build_feature_matrix], and the response vector of a property of
    formation, which the source assembles from [_format_response_data],
    the fixed contribution of the parameters already fitted and
    [_get_samples]. *)

Definition is_sequence (o : occupant) : bool :=
  match o with
  | Species _ => false
  | Tup _ | Lst _ => true
  end.

(** [np.asarray(values).flatten()]. *)
Definition flatten (a : ndarray) : list Q := concat (concat (planes a)).

(** [d[k]], raising [KeyError] on a missing key. *)
Definition dict_getitem {K V} `{EqDecision K} (d : list (K * V)) (k : K) : result V :=
  match dict_get d k with
  | Some v => Ok v
  | None => Raise KeyError
  end.

Section FitFormationEnergy.
Context {F expr : Type} `{EqDecision expr}.
Variables (zero : F) (add sub mul : F -> F -> F) (of_int : nat -> F).
Variables (ltb : F -> F -> bool) (isnan : F -> bool).
Variable log : F -> F.
Variable lstsq : list (list F) -> list F -> list F.
Variable of_Q : Q -> F.

(** [i[0]*i[1]] on expressions. *)
Variable expr_mul : expr -> expr -> expr.
(** [v.T*log(v.T)], [v.T**2], [v.T**-1], [v.T**3], [v.T], [S.One]. *)
Variables (T_log_T T_squared T_inverse T_cubed T_linear S_One : expr).
(** [YS], [YS*Z], [YS*Z**2], [YS*Z**3]. *)
Variable redlich_kister_features : list expr.

Variable _build_feature_matrix : string -> list expr -> list dataset -> list (list F).

(** The endmember energies: a dict from configurations to expressions. *)
Definition endmember_map : Type := list (list conf_item * expr).

(** The response of [SM_FORM] or [HM_FORM]: the data minus the lattice
    stability of the endmembers and minus the contribution of the
    parameters of the features in [fixed]. *)
Variable formation_response :
  string -> list dataset -> option endmember_map -> list expr -> list (expr * F)
  -> result (list F).

Definition default_features : list (string * list expr) :=
  [("CPM_FORM", [T_log_T; T_squared; T_inverse; T_cubed]);
   ("SM_FORM", [T_linear]);
   ("HM_FORM", [S_One])].

(** [[i[0]*i[1] for i in itertools.product(redlich_kister_features, f)]]. *)
Definition interaction_features (f : list expr) : list expr :=
  rk ← redlich_kister_features; (expr_mul rk) <$> f.

(** The first part of the function: the features, expanded for an
    interaction, which then needs the endmember energies. *)
Definition prepare_features (configuration : configuration)
    (features : option (list (string * list expr)))
    (endmembers : option endmember_map) : result (list (string * list expr)) :=
  let features := default default_features features in
  if existsb is_sequence configuration then
    let features := prod_map id interaction_features <$> features in
    match endmembers with
    | None => Raise ValueError
    | Some _ => Ok features
    end
  else Ok features.

(** [parameters[coef] = 0] for every feature of every property. *)
Definition zero_parameters (features : list (string * list expr)) : list (expr * F) :=
  dict_update [] ((fun coef => (coef, zero)) <$> concat (snd <$> features)).

(** One block of the function: look for data on [prop]; without data the
    parameters stay as they are, otherwise fit and update them. *)
Definition fit_property (comps : list string) (phase_name : string)
    (configuration : configuration) (symmetry : option (list (list nat)))
    (datasets : list dataset) (features : list (string * list expr))
    (endmembers : option endmember_map)
    (prop : string) (fixed_props : list string) (parameters : list (expr * F))
    : result (list (expr * F)) :=
  desired_data ← _get_data comps phase_name configuration symmetry datasets prop;
  match desired_data with
  | [] => Ok parameters
  | _ :: _ =>
      prop_features ← dict_getitem features prop;
      let feature_matrix := _build_feature_matrix prop prop_features desired_data in
      data_quantities ←
        match fixed_props with
        | [] => Ok (of_Q <$> concat (flatten <$> (values <$> desired_data)))
        | _ :: _ =>
            fixed ← rmapM (dict_getitem features) fixed_props;
            formation_response prop desired_data endmembers (concat fixed) parameters
        end;
      fitted ← _fit_parameters zero add sub mul of_int ltb isnan log lstsq
                 (length prop_features) feature_matrix data_quantities prop_features;
      Ok (dict_update parameters fitted)
  end.

Definition fit_formation_energy (comps : list string) (phase_name : string)
    (configuration : configuration) (symmetry : option (list (list nat)))
    (datasets : list dataset) (features : option (list (string * list expr)))
    (endmembers : option endmember_map) : result (list (expr * F)) :=
  features ← prepare_features configuration features endmembers;
  let fit := fit_property comps phase_name configuration symmetry datasets
                          features endmembers in
  parameters ← fit "CPM_FORM" [] (zero_parameters features);
  parameters ← fit "SM_FORM" ["CPM_FORM"] parameters;
  fit "HM_FORM" ["CPM_FORM"; "SM_FORM"] parameters.
End FitFormationEnergy.

(** ** The database and [phase_fit] ([paramselect.py], lines 544-641)

    A pycalphad [Database] holds the elements, the symbols and the
    parameters; a parameter is what [add_parameter] is given. *)

Record phase_parameter {expr : Type} : Type := mk_parameter {
  param_type : string;
  param_phase : string;
  param_constituents : list (list string);
  param_order : nat;
  param_expression : expr;
}.
Arguments phase_parameter : clear implicits.
Arguments mk_parameter {expr}.

(** A symbol is a plain expression or a SymPy [Piecewise], the list of the
    expressions of its pieces. *)
Inductive symbol_value {expr : Type} : Type :=
  | Plain (e : expr)
  | Piecewise (pieces : list expr).
Arguments symbol_value : clear implicits.

Record database {expr : Type} : Type := mk_database {
  elements : list string;
  symbols : list (string * symbol_value expr);
  parameters : list (phase_parameter expr);
}.
Arguments database : clear implicits.
Arguments mk_database {expr}.

(** [itertools.product] of a list of lists. *)
Fixpoint cartesian {A} (lists : list (list A)) : list (list A) :=
  match lists with
  | [] => [[]]
  | l :: lists' => x ← l; (cons x) <$> cartesian lists'
  end.

(** [itertools.combinations(l, 2)]. *)
Fixpoint combinations2 {A} (l : list A) : list (A * A) :=
  match l with
  | [] => []
  | x :: l' => (pair x <$> l') ++ combinations2 l'
  end.

(** The local function [_to_tuple] of [phase_fit], on the members of a
    configuration that [_generate_symmetric_group] returned (array rows
    never come back from it: [set] rejects them). *)
Definition _to_tuple (x : conf_item) : list string :=
  match x with
  | Item o => members o
  | Row l => l
  end.

(** The interaction between two endmembers: the common occupant where they
    agree, the sorted pair where they differ. *)
Definition interaction_of (first_endmember second_endmember : configuration)
    : configuration :=
  zip_with (fun first_occupant second_occupant =>
              if decide (first_occupant = second_occupant) then first_occupant
              else Tup (sorted id String.ltb
                          (members first_occupant ++ members second_occupant)))
           first_endmember second_endmember.

(** The generator with the bound of the walk discharged: the walk never
    exhausts it (see [generate_symmetric_group_total]). *)
Definition generate_symmetric_group (configuration : configuration)
    (symmetry : option (list (list nat))) : result (list (list conf_item)) :=
  default (Raise TypeError) (_generate_symmetric_group configuration symmetry).

Section PhaseFit.
Context {F expr : Type} `{EqDecision expr}.
Variables (zero : F) (add sub mul : F -> F -> F) (of_int : nat -> F).
Variables (ltb : F -> F -> bool) (isnan : F -> bool).
Variable log : F -> F.
Variable lstsq : list (list F) -> list F -> list F.
Variable of_Q : Q -> F.
Variable expr_mul : expr -> expr -> expr.
Variables (T_log_T T_squared T_inverse T_cubed T_linear S_One : expr).
Variable redlich_kister_features : list expr.
Variable _build_feature_matrix : string -> list expr -> list dataset -> list (list F).
Variable formation_response :
  string -> list dataset -> option (@endmember_map expr) -> list expr -> list (expr * F)
  -> result (list F).
(** [fit_eq]: the sum of the rounded coefficients times their features
    plus the reference energies weighted by the site ratios. *)
Variable endmember_expression : list (expr * F) -> configuration -> list Q -> expr.
(** [degree_polys]: for each degree from 0 to 9 the polynomial of the
    interaction, [None] where it is zero. *)
Variable interaction_polynomials : list (expr * F) -> list (option expr).

(** Code that works on a database: it may change it and may raise, and
    what it changed before raising stays changed. *)
Definition dbM (A : Type) : Type := database expr -> result A * database expr.

Definition db_ret {A} (a : A) : dbM A := fun db => (Ok a, db).

Definition db_bind {A B} (m : dbM A) (k : A -> dbM B) : dbM B := fun db =>
  match m db with
  | (Ok a, db') => k a db'
  | (Raise e, db') => (Raise e, db')
  end.

(** A computation that does not touch the database. *)
Definition db_lift {A} (r : result A) : dbM A := fun db => (r, db).

Fixpoint db_for {A} (l : list A) (body : A -> dbM unit) : dbM unit :=
  match l with
  | [] => db_ret tt
  | a :: l' => db_bind (body a) (fun _ => db_for l' body)
  end.

Fixpoint db_fold {A S} (l : list A) (s : S) (body : S -> A -> dbM S) : dbM S :=
  match l with
  | [] => db_ret s
  | a :: l' => db_bind (body s a) (fun s' => db_fold l' s' body)
  end.

(** [dbf.add_parameter(param_type, phase_name, constituents, order, expr)]. *)
Definition add_parameter (param_type phase_name : string)
    (constituents : list (list string)) (order : nat) (e : expr) : dbM unit :=
  fun db => (Ok tt,
             mk_database (elements db) (symbols db)
               (parameters db ++ [mk_parameter param_type phase_name
                                    constituents order e])).

Definition fit_energy (db : database expr) (phase_name : string)
    (c : configuration) (symmetry : option (list (list nat)))
    (datasets : list dataset) (endmembers : option endmember_map)
    : result (list (expr * F)) :=
  fit_formation_energy zero add sub mul of_int ltb isnan log lstsq of_Q expr_mul
    T_log_T T_squared T_inverse T_cubed T_linear S_One redlich_kister_features
    _build_feature_matrix formation_response
    (sorted id String.ltb (elements db)) phase_name c symmetry datasets None endmembers.

(** [sorted(set(canonicalize(i, symmetry) for i in candidates), ...)]:
    configurations in tuple form hash, and both the plain order of
    tuples of strings and the order by [canonical_sort_key] compare the
    occupants as tuples. *)
Definition distinct_by_symmetry (symmetry : option (list (list nat)))
    (candidates : list configuration) : result (list configuration) :=
  canonical ← rmapM (fun i => canonicalize i symmetry) candidates;
  Ok (sorted (fun c => configuration_sort_key (Item <$> c)) configuration_ltb
             (remove_dups canonical)).

(** The loop over the endmembers: fit, record the expression in
    [em_dict] and write a ["G"] parameter for every symmetric copy. *)
Definition fit_endmember (phase_name : string) (symmetry : option (list (list nat)))
    (site_ratios : list Q) (datasets : list dataset)
    (em_dict : endmember_map) (endmember : configuration) : dbM endmember_map :=
  fun db =>
  db_bind (db_lift (fit_energy db phase_name endmember symmetry datasets None))
    (fun parameters =>
     let fit_eq := endmember_expression parameters endmember site_ratios in
     db_bind (db_lift (generate_symmetric_group endmember symmetry))
       (fun symmetric_endmembers =>
        db_fold symmetric_endmembers em_dict
          (fun em_dict em =>
             db_bind (add_parameter "G" phase_name (_to_tuple <$> em) 0 fit_eq)
               (fun _ => db_ret (dict_set em_dict em fit_eq))))) db.

(** The loop over the binary interactions: fit with the endmember
    energies and write an ["L"] parameter per degree that is not zero,
    for every symmetric copy. *)
Definition fit_interaction (phase_name : string) (symmetry : option (list (list nat)))
    (datasets : list dataset) (em_dict : endmember_map)
    (interaction : configuration) : dbM unit :=
  fun db =>
  db_bind (db_lift (fit_energy db phase_name (_list_to_tuple interaction) symmetry
                      datasets (Some em_dict)))
    (fun parameters =>
     let degree_polys := interaction_polynomials parameters in
     db_bind (db_lift (generate_symmetric_group interaction symmetry))
       (fun symmetric_interactions =>
        db_for (imap pair degree_polys)
          (fun '(degree, poly) =>
             match poly with
             | None => db_ret tt
             | Some e =>
                 db_for symmetric_interactions
                   (fun syminter =>
                      add_parameter "L" phase_name (_to_tuple <$> syminter) degree e)
             end))) db.

Definition phase_fit (phase_name : string) (symmetry : option (list (list nat)))
    (subl_model : list (list string)) (site_ratios : list Q)
    (datasets : list dataset) : dbM unit :=
  db_bind (db_lift (distinct_by_symmetry symmetry
                      ((fun i : list string => Species <$> i) <$> cartesian subl_model)))
    (fun endmembers =>
     db_bind (db_fold endmembers []
                (fit_endmember phase_name symmetry site_ratios datasets))
       (fun em_dict =>
        db_bind (db_lift (distinct_by_symmetry symmetry
                            (uncurry interaction_of <$> combinations2 endmembers)))
          (fun bin_interactions =>
           db_for bin_interactions
             (fit_interaction phase_name symmetry datasets em_dict)))).
End PhaseFit.

(** A database extends another when it has the same elements and symbols
    and the same parameters followed by new ones. *)
Definition extends {expr} (db db' : database expr) : Prop :=
  elements db' = elements db /\ symbols db' = symbols db
  /\ exists new, parameters db' = parameters db ++ new.

(** Database code is append-only when every run extends the database it
    starts from. *)
Definition append_only {expr A} (m : @dbM expr A) : Prop :=
  forall db, extends db (m db).2.

(** ** Database objects and [setup_context] ([error_functions/context.py])

    Python passes a database by reference.  The store maps references to
    database objects; [copy.deepcopy] allocates a new object that shares
    nothing with the one it copies. *)

Section SetupContext.
Context {expr models : Type}.
(** [espei.utils.database_symbols_to_fit]. *)
Variable database_symbols_to_fit : database expr -> list string.
(** What [instantiate_models], [build_callables], [get_zpf_data] and
    [get_thermochemical_data] build from the copied database. *)
Variable build_models : database expr -> list string -> list string -> list dataset -> models.

(** The store maps a reference to the object behind it. *)
Abbreviation store := (gmap nat (database expr)).

Definition deepcopy (dbf : nat) (h : store) : result nat * store :=
  match h !! dbf with
  | Some db => let dbf' := fresh (dom h) in (Ok dbf', <[dbf' := db]> h)
  | None => (Raise KeyError, h)
  end.

(** [if isinstance(dbf.symbols[x], sympy.Piecewise):
       dbf.symbols[x] = dbf.symbols[x].args[0].expr]. *)
Definition unwrap_piecewise (x : string) : @dbM expr unit := fun db =>
  match dict_get (symbols db) x with
  | None => (Raise KeyError, db)
  | Some (Plain _) => (Ok tt, db)
  | Some (Piecewise pieces) =>
      match pieces with
      | [] => (Raise IndexError, db)
      | e :: _ =>
          (Ok tt, mk_database (elements db) (dict_set (symbols db) x (Plain e))
                              (parameters db))
      end
  end.

Record error_context : Type := mk_context {
  ctx_symbols_to_fit : list string;
  ctx_dbf : nat;
  ctx_models : models;
}.

(** Run database code on the object behind a reference. *)
Definition at_reference {A} (dbf : nat) (m : @dbM expr A) (h : store) : result A * store :=
  match h !! dbf with
  | Some db => let '(r, db') := m db in (r, <[dbf := db']> h)
  | None => (Raise KeyError, h)
  end.

Definition setup_context (dbf : nat) (datasets : list dataset)
    (symbols_to_fit : option (list string)) (h : store)
    : result error_context * store :=
  match deepcopy dbf h with
  | (Raise e, h) => (Raise e, h)
  | (Ok dbf, h) =>
      at_reference dbf
        (fun db =>
           let comps := sorted id String.ltb (elements db) in
           let symbols_to_fit :=
             match symbols_to_fit with
             | None => database_symbols_to_fit db
             | Some s => sorted id String.ltb s
             end in
           if decide (length symbols_to_fit = 0) then (Raise ValueError, db)
           else
             db_bind (db_for symbols_to_fit unwrap_piecewise)
               (fun _ db =>
                  (Ok (mk_context symbols_to_fit dbf
                         (build_models db comps symbols_to_fit datasets)), db))
               db)
        h
  end.
End SetupContext.

(** *** An instance with strings for expressions

    Enough to run the fitter on a one-species phase with no data. *)

(** One row of ones for every temperature of every record. *)
Definition example_feature_matrix (prop : string) (features : list string)
    (desired_data : list dataset) : list (list xnum) :=
  d ← desired_data; _ ← atleast_1d (conditions_T d); [const (Num 1) <$> features].

Definition example_phase_fit : string -> option (list (list nat)) -> list (list string)
    -> list Q -> list dataset -> @dbM string unit :=
  @phase_fit xnum string _ (Num 0) xadd xsub xmul xof_int xltb (fun _ => false) xlog
    scale_first_column (fun q => Num (Qnum q / Zpos (Qden q)))
    String.append "T*log(T)" "T**2" "T**(-1)" "T**3" "T" "1"
    ["YS"; "YS*Z"; "YS*Z**2"; "YS*Z**3"]
    example_feature_matrix
    (fun _ _ _ _ _ => Ok [Num 0])
    (fun _ _ _ => "GHSER")
    (fun _ => replicate 10 None).

Definition example_fit_formation_energy : list string -> string -> configuration
    -> option (list (list nat)) -> list dataset -> option (list (string * list string))
    -> option (@endmember_map string) -> result (list (string * xnum)) :=
  @fit_formation_energy xnum string _ (Num 0) xadd xsub xmul xof_int xltb
    (fun _ => false) xlog scale_first_column (fun q => Num (Qnum q / Zpos (Qden q)))
    String.append "T*log(T)" "T**2" "T**(-1)" "T**3" "T" "1"
    ["YS"; "YS*Z"; "YS*Z**2"; "YS*Z**3"]
    example_feature_matrix
    (fun _ _ _ _ _ => Ok [Num 0]).

Definition empty_database : database string := mk_database ["A"] [] [].

(** * Properties *)

(** ** The error monad *)

Lemma rbind_Ok {A B} (m : result A) (k : A -> result B) (b : B) :
  m ≫= k = Ok b -> exists a, m = Ok a /\ k a = Ok b.
Proof. destruct m as [a|e]; cbn; [eauto | discriminate]. Qed.

Lemma rmapM_Ok_length {A B} (f : A -> result B) (l : list A) (bs : list B) :
  rmapM f l = Ok bs -> length bs = length l.
Proof.
  revert bs. induction l as [|a l IH]; intros bs H; cbn in H.
  - by injection H as <-.
  - apply rbind_Ok in H as (b & _ & H).
    apply rbind_Ok in H as (bs' & Hbs & H).
    injection H as <-. cbn. f_equal. by apply IH.
Qed.

Lemma rfoldM_const {A S} (f : S -> A -> result S) (l : list A) (s : S) :
  Forall (fun a => f s a = Ok s) l -> rfoldM f l s = Ok s.
Proof.
  induction 1 as [|a l Ha _ IH]; cbn; [done|]. by rewrite Ha.
Qed.

(** ** Sorting *)

Section SortedFacts.
Context {A K : Type} (key : A -> K) (ltb : K -> K -> bool).
Hypothesis ltb_asym : forall a b, ltb a b = true -> ltb b a = false.

Lemma insert_by_Permutation (x : A) (l : list A) :
  Permutation (insert_by key ltb x l) (x :: l).
Proof.
  induction l as [|y l IH]; cbn; [done|].
  destruct (ltb (key y) (key x)); [|done].
  rewrite IH. apply perm_swap.
Qed.

Lemma sorted_Permutation (l : list A) : Permutation (sorted key ltb l) l.
Proof.
  induction l as [|x l IH]; cbn; [done|].
  by rewrite insert_by_Permutation, IH.
Qed.

Lemma length_sorted (l : list A) : length (sorted key ltb l) = length l.
Proof. apply Permutation_length, sorted_Permutation. Qed.

Lemma insert_by_nondecreasing (x : A) (l : list A) :
  nondecreasing key ltb l -> nondecreasing key ltb (insert_by key ltb x l).
Proof using ltb_asym.
  induction l as [|y l IH]; intros Hl; cbn; [done|].
  destruct (ltb (key y) (key x)) eqn:Hyx.
  - destruct Hl as [Hhd Htl]. specialize (IH Htl).
    split; [|done].
    destruct l as [|z l]; cbn in *.
    + by apply ltb_asym.
    + destruct (ltb (key z) (key x)); [done|]. by apply ltb_asym.
  - by split.
Qed.

Lemma sorted_nondecreasing (l : list A) : nondecreasing key ltb (sorted key ltb l).
Proof using ltb_asym.
  induction l as [|x l IH]; cbn; [done|]. by apply insert_by_nondecreasing.
Qed.

(** Sorting a list that is already in order returns it unchanged. *)
Lemma sorted_id (l : list A) : nondecreasing key ltb l -> sorted key ltb l = l.
Proof.
  induction l as [|x l IH]; [done|]. intros [Hhd Htl]; cbn.
  rewrite (IH Htl). destruct l as [|y l]; cbn; [done|]. by rewrite Hhd.
Qed.

Lemma nondecreasing_map (f : A -> A) (l : list A) :
  (forall a, key (f a) = key a) ->
  nondecreasing key ltb l -> nondecreasing key ltb (f <$> l).
Proof.
  intros Hf. induction l as [|x l IH]; [done|]. intros [Hhd Htl]; cbn.
  split; [|by apply IH].
  destruct l as [|y l]; cbn; [done|]. by rewrite !Hf.
Qed.
End SortedFacts.

Lemma list_ltb_asym {A} (ltb : A -> A -> bool) :
  (forall a b, ltb a b = true -> ltb b a = false) ->
  forall a b, list_ltb ltb a b = true -> list_ltb ltb b a = false.
Proof.
  intros Hasym a. induction a as [|x a IH]; intros [|y b]; cbn; try done.
  destruct (ltb x y) eqn:Hxy.
  - intros _. by rewrite (Hasym _ _ Hxy).
  - destruct (ltb y x) eqn:Hyx; [done|]. apply IH.
Qed.

Lemma string_ltb_asym (a b : string) : String.ltb a b = true -> String.ltb b a = false.
Proof.
  unfold String.ltb. rewrite (String.compare_antisym a b).
  by destruct (String.compare b a).
Qed.

Lemma key_ltb_asym (a b : list string) : key_ltb a b = true -> key_ltb b a = false.
Proof. apply list_ltb_asym, string_ltb_asym. Qed.

Lemma nat_ltb_asym (a b : nat) : Nat.ltb a b = true -> Nat.ltb b a = false.
Proof. rewrite Nat.ltb_lt, Nat.ltb_ge. lia. Qed.

Lemma key_tuple_of_list (o : occupant) :
  canonical_sort_key (tuple_of_list o) = canonical_sort_key o.
Proof. by destruct o. Qed.

Lemma tuple_of_list_idemp (o : occupant) :
  tuple_of_list (tuple_of_list o) = tuple_of_list o.
Proof. by destruct o. Qed.

Lemma sorted_occ_tuples (vals : list occupant) :
  sorted_occ (tuple_of_list <$> sorted_occ vals) = tuple_of_list <$> sorted_occ vals.
Proof.
  apply sorted_id, nondecreasing_map; [apply key_tuple_of_list|].
  apply sorted_nondecreasing, key_ltb_asym.
Qed.

(** ** Reading and writing by index *)

Lemma getitem_Ok {A} (l : list A) (i : nat) (a : A) :
  getitem l i = Ok a <-> l !! i = Some a.
Proof.
  unfold getitem. destruct (l !! i); split; intros H; by inversion H.
Qed.

Lemma setitem_Ok {A} (l l' : list A) (i : nat) (v : A) :
  setitem l i v = Ok l' -> i < length l /\ l' = <[i := v]> l.
Proof. unfold setitem. case_decide; intros [= <-]; by split. Qed.

Lemma setitem_same {A} (l : list A) (i : nat) (v : A) :
  l !! i = Some v -> setitem l i v = Ok l.
Proof.
  intros H. unfold setitem. rewrite decide_True by by eapply lookup_lt_Some.
  by rewrite list_insert_id.
Qed.

(** The write-back loop of [canonicalize] on distinct positions: afterwards
    the positions written hold the values written, lists as tuples, and
    every other position is as it was. *)
Lemma write_back_spec (idxs : list nat) (vals canon canon' : list occupant) :
  NoDup idxs -> length vals = length idxs ->
  rfoldM (fun canon '(conf_idx, v) => setitem canon conf_idx (tuple_of_list v))
         (zip idxs vals) canon = Ok canon' ->
  rmapM (getitem canon') idxs = Ok (tuple_of_list <$> vals)
  /\ (forall i, i ∉ idxs -> canon' !! i = canon !! i)
  /\ length canon' = length canon.
Proof.
  revert vals canon. induction idxs as [|i idxs IH]; intros [|v vals] canon Hnd Hlen H;
    try discriminate.
  - cbn in H. by injection H as <-.
  - cbn in H. apply rbind_Ok in H as (canon1 & Hset & H).
    apply setitem_Ok in Hset as [Hi ->].
    apply NoDup_cons in Hnd as [Hni Hnd].
    destruct (IH vals _ Hnd ltac:(by injection Hlen) H) as (Hread & Hframe & Hlen').
    rewrite length_insert in Hlen'.
    split; [|split; [|done]].
    + cbn. erewrite (proj2 (getitem_Ok _ _ _)); cbn.
      * by rewrite Hread.
      * rewrite (Hframe i Hni). by apply list_lookup_insert_eq.
    + intros j Hj. apply not_elem_of_cons in Hj as [Hji Hj].
      rewrite (Hframe j Hj). by apply list_lookup_insert_ne.
Qed.

Lemma rmapM_getitem_ext {A} (l l' : list A) (idxs : list nat) :
  (forall i, i ∈ idxs -> l' !! i = l !! i) ->
  rmapM (getitem l') idxs = rmapM (getitem l) idxs.
Proof.
  induction idxs as [|i idxs IH]; intros H; [done|].
  assert (getitem l' i = getitem l i) as Hi.
  { unfold getitem. rewrite (H i); [done|]. apply elem_of_cons; auto. }
  cbn. rewrite Hi, IH; [done|].
  intros; apply H, elem_of_cons; auto.
Qed.

(** Writing back what is already there changes nothing. *)
Lemma write_back_same (idxs : list nat) (vals canon : list occupant) :
  rmapM (getitem canon) idxs = Ok (tuple_of_list <$> vals) ->
  rfoldM (fun canon '(conf_idx, v) => setitem canon conf_idx (tuple_of_list v))
         (zip idxs vals) canon = Ok canon.
Proof.
  revert vals. induction idxs as [|i idxs IH]; intros [|v vals] H; try done.
  cbn in H. apply rbind_Ok in H as (b & Hb & H).
  apply rbind_Ok in H as (bs & Hbs & H). injection H as -> ->.
  cbn. apply getitem_Ok in Hb. rewrite (setitem_same _ _ _ Hb). cbn.
  by apply IH.
Qed.

(** ** [canonicalize] *)


Lemma sorted_nat_elem_of (subl : list nat) (i : nat) : i ∈ sorted_nat subl <-> i ∈ subl.
Proof. unfold sorted_nat. by rewrite sorted_Permutation. Qed.

Lemma sorted_nat_NoDup (subl : list nat) : NoDup subl -> NoDup (sorted_nat subl).
Proof. unfold sorted_nat. by rewrite sorted_Permutation. Qed.

(** One pass of the loop body over a set of positions. *)
Lemma canon_step_spec (c canon canon' : list occupant) (subl : list nat) :
  NoDup subl ->
  canon_step c canon subl = Ok canon' ->
  exists vals,
    rmapM (getitem c) (sorted_nat subl) = Ok vals
    /\ rmapM (getitem canon') (sorted_nat subl) = Ok (tuple_of_list <$> sorted_occ vals)
    /\ (forall i, i ∉ subl -> canon' !! i = canon !! i)
    /\ length canon' = length canon.
Proof.
  intros Hnd H. unfold canon_step in H.
  apply rbind_Ok in H as (vals & Hvals & H).
  exists vals. split; [done|].
  apply write_back_spec in H as (Hread & Hframe & Hlen).
  - split; [done|]. split; [|done].
    intros i Hi. apply Hframe. by rewrite sorted_nat_elem_of.
  - by apply sorted_nat_NoDup.
  - unfold sorted_occ. rewrite length_sorted. by eapply rmapM_Ok_length.
Qed.

(** After the whole loop, every index set holds its own sorted occupants
    and positions outside the symmetry are untouched. *)
Lemma canon_loop_spec (c : list occupant) (symm : list (list nat)) :
  forall canon canon', NoDup (concat symm) ->
  rfoldM (canon_step c) symm canon = Ok canon' ->
  Forall (fun subl => exists vals,
            rmapM (getitem c) (sorted_nat subl) = Ok vals
            /\ rmapM (getitem canon') (sorted_nat subl)
               = Ok (tuple_of_list <$> sorted_occ vals)) symm
  /\ (forall i, i ∉ concat symm -> canon' !! i = canon !! i)
  /\ length canon' = length canon.
Proof.
  induction symm as [|subl symm IH]; intros canon canon' Hnd H; cbn in H.
  - injection H as <-. by repeat split.
  - apply rbind_Ok in H as (canon1 & Hstep & H).
    cbn in Hnd. apply NoDup_app in Hnd as (Hsubl & Hdisj & Hrest).
    apply canon_step_spec in Hstep as (vals & Hvals & Hread & Hframe & Hlen); [|done].
    destruct (IH _ _ Hrest H) as (Hall & Hframe' & Hlen').
    split; [|split].
    + constructor; [|done]. exists vals. split; [done|].
      rewrite <- Hread. apply rmapM_getitem_ext.
      intros i Hi. apply Hframe', Hdisj. by apply sorted_nat_elem_of.
    + intros i Hi. cbn in Hi. apply not_elem_of_app in Hi as [Hi1 Hi2].
      by rewrite Hframe', Hframe.
    + congruence.
Qed.

(** C3. Canonicalizing twice gives what canonicalizing once gives, for
    every configuration and every symmetry made of disjoint index sets, the
    absent symmetry included.  When the first call raises (an index beyond
    the configuration) there is no value to canonicalize again and the
    composition raises the same exception. *)
Theorem canonicalize_idempotent (c : configuration) (symmetry : option (list (list nat))) :
  disjoint_index_sets symmetry ->
  (c' ← canonicalize c symmetry; canonicalize c' symmetry) = canonicalize c symmetry.
Proof.
  intros Hwf. destruct (canonicalize c symmetry) as [c'|e] eqn:Hc; [|done].
  cbn. destruct symmetry as [symm|]; [|done].
  cbn in *. destruct (canon_loop_spec c symm c c' Hwf Hc) as (Hall & _ & _).
  apply rfoldM_const. eapply Forall_impl; [exact Hall|].
  intros subl (vals & _ & Hread). unfold canon_step. rewrite Hread. cbn.
  rewrite sorted_occ_tuples. apply write_back_same.
  rewrite Hread. f_equal. rewrite <- list_fmap_compose.
  apply list_fmap_ext. intros _ o _. cbn. by rewrite tuple_of_list_idemp.
Qed.

Lemma canonicalize_idempotent_witness :
  disjoint_index_sets (Some [[3; 0]; [2; 1]])
  /\ (c' ← canonicalize [Species "B"; Species "A"; Lst ["B"; "A"]; Species "AL"]
                        (Some [[3; 0]; [2; 1]]);
      canonicalize c' (Some [[3; 0]; [2; 1]]))
     = Ok [Species "AL"; Species "A"; Tup ["B"; "A"]; Species "B"].
Proof.
  split.
  - apply (bool_decide_unpack _). reflexivity.
  - rewrite (canonicalize_idempotent _ (Some [[3; 0]; [2; 1]])); [reflexivity|].
    apply (bool_decide_unpack _). reflexivity.
Defined.

(** ** Symmetry invariance where the keys tell the occupants apart *)

Section StrictTotalOrder.
Context {K : Type} (ltb : K -> K -> bool).
Hypothesis ltb_asym : forall a b, ltb a b = true -> ltb b a = false.
Hypothesis ltb_trans : forall a b c, ltb a b = true -> ltb b c = true -> ltb a c = true.
Hypothesis ltb_trich : forall a b, ltb a b = false -> ltb b a = false -> a = b.

Lemma ltb_cotrans (a b c : K) :
  ltb a c = true -> ltb a b = true \/ ltb b c = true.
Proof using ltb_trans ltb_trich.
  intros Hac. destruct (ltb a b) eqn:Hab; [by left|]. right.
  destruct (ltb b a) eqn:Hba; [by eapply ltb_trans|].
  by rewrite <- (ltb_trich a b Hab Hba).
Qed.

Lemma geb_trans (a b c : K) :
  ltb b a = false -> ltb c b = false -> ltb c a = false.
Proof using ltb_trans ltb_trich.
  intros Hba Hcb. destruct (ltb c a) eqn:Hca; [|done].
  destruct (ltb_cotrans c b a Hca); congruence.
Qed.

Lemma list_ltb_trans (a b c : list K) :
  list_ltb ltb a b = true -> list_ltb ltb b c = true -> list_ltb ltb a c = true.
Proof using ltb_asym ltb_trans ltb_trich.
  revert b c. induction a as [|x a IH]; intros [|y b] [|z c]; cbn; try done.
  destruct (ltb x y) eqn:Hxy.
  - intros _. destruct (ltb y z) eqn:Hyz.
    + intros _. by rewrite (ltb_trans x y z).
    + destruct (ltb z y) eqn:Hzy; [done|]. intros _.
      rewrite <- (ltb_trich y z Hyz Hzy). by rewrite Hxy.
  - destruct (ltb y x) eqn:Hyx; [done|].
    rewrite (ltb_trich x y Hxy Hyx). intros Hab.
    destruct (ltb y z); [done|]. destruct (ltb z y); [done|]. by apply IH.
Qed.

Lemma list_ltb_trich (a b : list K) :
  list_ltb ltb a b = false -> list_ltb ltb b a = false -> a = b.
Proof using ltb_asym ltb_trich.
  revert b. induction a as [|x a IH]; intros [|y b]; cbn; try done.
  destruct (ltb x y) eqn:Hxy; [done|]. destruct (ltb y x) eqn:Hyx; [done|].
  intros Hab Hba. f_equal; [by apply ltb_trich | by apply IH].
Qed.

Context {A : Type} (key : A -> K).

Lemma nondecreasing_head_min (x : A) (l : list A) :
  nondecreasing key ltb (x :: l) ->
  Forall (fun y => ltb (key y) (key x) = false) l.
Proof using ltb_trans ltb_trich.
  revert x. induction l as [|y l IH]; intros x [Hxy Hl]; constructor; [done|].
  eapply Forall_impl; [by apply IH|]. cbn. intros z Hz. by eapply geb_trans.
Qed.

(** Two lists in order with the same members are the same list, when
    members with one key are one member. *)
Lemma nondecreasing_unique (m1 m2 : list A) :
  Permutation m1 m2 ->
  nondecreasing key ltb m1 -> nondecreasing key ltb m2 ->
  (forall a b, a ∈ m1 -> b ∈ m1 -> key a = key b -> a = b) ->
  m1 = m2.
Proof using ltb_asym ltb_trans ltb_trich.
  assert (forall k, ltb k k = false) as Hirrefl.
  { intros k. destruct (ltb k k) eqn:E; [|done]. by rewrite (ltb_asym _ _ E) in E. }
  assert (forall x l y, nondecreasing key ltb (x :: l) -> y ∈ x :: l ->
            ltb (key y) (key x) = false) as Hmin.
  { intros x l y Hl Hy. apply elem_of_cons in Hy as [->|Hy]; [apply Hirrefl|].
    pose proof (nondecreasing_head_min _ _ Hl) as Hall.
    rewrite Forall_forall in Hall. by apply Hall. }
  revert m2. induction m1 as [|x1 m1 IH]; intros m2 Hperm H1 H2 Hinj.
  - by apply Permutation_nil_l in Hperm.
  - destruct m2 as [|x2 m2]; [by apply Permutation_nil_r in Hperm|].
    assert (x1 ∈ x2 :: m2) as Hx1 by (rewrite <- Hperm; apply elem_of_cons; auto).
    assert (x2 ∈ x1 :: m1) as Hx2 by (rewrite Hperm; apply elem_of_cons; auto).
    assert (x1 = x2) as <-.
    { apply Hinj; [apply elem_of_cons; auto | done |].
      apply ltb_trich; [by eapply (Hmin x2 m2) | by eapply (Hmin x1 m1)]. }
    f_equal. apply IH.
    + by eapply Permutation_cons_inv.
    + by destruct H1.
    + by destruct H2.
    + intros a b Ha Hb. apply Hinj; apply elem_of_cons; auto.
Qed.
End StrictTotalOrder.

Lemma string_compare_lt_trans (a b c : string) :
  String.compare a b = Lt -> String.compare b c = Lt -> String.compare a c = Lt.
Proof.
  revert b c. induction a as [|x a IH]; intros [|y b] [|z c]; cbn; try done.
  unfold Ascii.compare.
  destruct (N.compare_spec (N_of_ascii x) (N_of_ascii y)) as [Hxy|Hxy|Hxy];
    destruct (N.compare_spec (N_of_ascii y) (N_of_ascii z)) as [Hyz|Hyz|Hyz];
    destruct (N.compare_spec (N_of_ascii x) (N_of_ascii z)) as [Hxz|Hxz|Hxz];
    try done; try lia.
  apply IH.
Qed.

Lemma string_ltb_trans (a b c : string) :
  String.ltb a b = true -> String.ltb b c = true -> String.ltb a c = true.
Proof.
  unfold String.ltb. intros Hab Hbc.
  rewrite (string_compare_lt_trans a b c); [done| |].
  - by destruct (String.compare a b).
  - by destruct (String.compare b c).
Qed.

Lemma string_ltb_trich (a b : string) :
  String.ltb a b = false -> String.ltb b a = false -> a = b.
Proof.
  unfold String.ltb. rewrite (String.compare_antisym b a).
  destruct (String.compare a b) eqn:E; try done. intros _ _.
  by apply String.compare_eq_iff.
Qed.

Lemma key_ltb_trans (a b c : list string) :
  key_ltb a b = true -> key_ltb b c = true -> key_ltb a c = true.
Proof.
  apply list_ltb_trans;
    [apply string_ltb_asym | apply string_ltb_trans | apply string_ltb_trich].
Qed.

Lemma key_ltb_trich (a b : list string) :
  key_ltb a b = false -> key_ltb b a = false -> a = b.
Proof. apply list_ltb_trich; [apply string_ltb_asym | apply string_ltb_trich]. Qed.

(** Sorting the same occupants from another order gives, once lists are
    tuples, the same list. *)
Lemma sorted_occ_Permutation (vals vals' : list occupant) :
  Permutation vals' vals ->
  (forall a b, a ∈ vals -> b ∈ vals ->
     canonical_sort_key a = canonical_sort_key b -> tuple_of_list a = tuple_of_list b) ->
  tuple_of_list <$> sorted_occ vals' = tuple_of_list <$> sorted_occ vals.
Proof.
  intros Hperm Hinj.
  apply (nondecreasing_unique key_ltb key_ltb_asym key_ltb_trans key_ltb_trich
           canonical_sort_key).
  - apply fmap_Permutation. unfold sorted_occ. by rewrite !sorted_Permutation.
  - apply nondecreasing_map; [apply key_tuple_of_list|].
    apply sorted_nondecreasing, key_ltb_asym.
  - apply nondecreasing_map; [apply key_tuple_of_list|].
    apply sorted_nondecreasing, key_ltb_asym.
  - intros a b Ha Hb Hkey.
    apply list_elem_of_fmap in Ha as (a0 & -> & Ha0).
    apply list_elem_of_fmap in Hb as (b0 & -> & Hb0).
    unfold sorted_occ in Ha0, Hb0. rewrite sorted_Permutation, Hperm in Ha0, Hb0.
    rewrite !key_tuple_of_list in Hkey. by apply Hinj.
Qed.

Lemma elem_of_concat {A} (ls : list (list A)) (x : A) :
  x ∈ concat ls <-> exists l, l ∈ ls /\ x ∈ l.
Proof.
  induction ls as [|l ls IH]; cbn.
  - split; [intros H; by apply elem_of_nil in H|]. intros (l & Hl & _).
    by apply elem_of_nil in Hl.
  - rewrite elem_of_app, IH. split.
    + intros [Hx|(l' & Hl' & Hx)]; [exists l | exists l']; split; try done;
        apply elem_of_cons; auto.
    + intros (l' & Hl' & Hx). apply elem_of_cons in Hl' as [->|Hl']; eauto.
Qed.

Lemma rmapM_getitem_elem_of {A} (l : list A) (idxs : list nat) (vals : list A) :
  rmapM (getitem l) idxs = Ok vals ->
  Forall (fun i => i < length l) idxs /\ Forall (fun v => v ∈ l) vals.
Proof.
  revert vals. induction idxs as [|i idxs IH]; intros vals H; cbn in H.
  - injection H as <-. by split.
  - apply rbind_Ok in H as (v & Hv & H). apply rbind_Ok in H as (vs & Hvs & H).
    injection H as <-. apply getitem_Ok in Hv. destruct (IH _ Hvs) as [Hi Hin].
    split; constructor; try done.
    + by eapply lookup_lt_Some.
    + by eapply list_elem_of_lookup_2.
Qed.

Lemma rmapM_getitem_agree {A} (a b : list A) (idxs : list nat) (vals : list A) (i : nat) :
  rmapM (getitem a) idxs = Ok vals -> rmapM (getitem b) idxs = Ok vals ->
  i ∈ idxs -> a !! i = b !! i.
Proof.
  revert vals. induction idxs as [|j idxs IH]; intros vals Ha Hb Hi;
    [by apply elem_of_nil in Hi|].
  cbn in Ha, Hb.
  apply rbind_Ok in Ha as (va & Hva & Ha). apply rbind_Ok in Ha as (vas & Hvas & Ha).
  apply rbind_Ok in Hb as (vb & Hvb & Hb). apply rbind_Ok in Hb as (vbs & Hvbs & Hb).
  injection Ha as <-. injection Hb as -> ->.
  apply getitem_Ok in Hva, Hvb.
  apply elem_of_cons in Hi as [->|Hi]; [congruence|]. by eapply IH.
Qed.

Lemma write_back_total (idxs : list nat) (vals canon : list occupant) :
  Forall (fun i => i < length canon) idxs ->
  exists canon',
    rfoldM (fun canon '(conf_idx, v) => setitem canon conf_idx (tuple_of_list v))
           (zip idxs vals) canon = Ok canon'.
Proof.
  revert vals canon. induction idxs as [|i idxs IH]; intros vals canon Hin;
    [by eexists|].
  destruct vals as [|v vals]; [by eexists|].
  apply Forall_cons in Hin as [Hi Hin]. cbn. unfold setitem.
  rewrite decide_True by done. cbn. apply IH.
  eapply Forall_impl; [exact Hin|]. cbn. intros j Hj. by rewrite length_insert.
Qed.

Lemma canon_loop_total (c : configuration) (symm : list (list nat)) :
  forall canon, NoDup (concat symm) -> length canon = length c ->
  Forall (fun subl => exists vals, occupants_at c subl = Ok vals) symm ->
  exists canon', rfoldM (canon_step c) symm canon = Ok canon'.
Proof.
  induction symm as [|subl symm IH]; intros canon Hnd Hlen Hreads; [by eexists|].
  cbn in Hnd. apply NoDup_app in Hnd as (Hsubl & _ & Hrest).
  apply Forall_cons in Hreads as [(vals & Hvals) Hreads].
  destruct (write_back_total (sorted_nat subl) (sorted_occ vals) canon) as [canon1 Hw].
  { apply rmapM_getitem_elem_of in Hvals as [Hin _]. by rewrite Hlen. }
  assert (canon_step c canon subl = Ok canon1) as Hstep.
  { unfold canon_step. unfold occupants_at in Hvals. by rewrite Hvals. }
  cbn. rewrite Hstep. cbn. apply IH; [done| |done].
  apply canon_step_spec in Hstep as (_ & _ & _ & _ & Hl); [congruence|done].
Qed.

(** Where the sort keys tell the occupants apart, exchanging occupants
    inside the index sets of a symmetry does not change the canonical
    form. *)
Theorem canonicalize_symmetry_invariant (c c' : configuration) (symm : list (list nat)) :
  NoDup (concat symm) -> exchanged_within symm c c' -> keys_tell_apart c ->
  exists canonical,
    canonicalize c (Some symm) = Ok canonical
    /\ canonicalize c' (Some symm) = Ok canonical.
Proof.
  intros Hnd (Hlen & Hframe & Hsets) Hkeys. cbn.
  destruct (canon_loop_total c symm c Hnd eq_refl) as [c1 H1].
  { eapply Forall_impl; [exact Hsets|]. cbn. intros subl (vals & _ & Hv & _). eauto. }
  destruct (canon_loop_total c' symm c' Hnd eq_refl) as [c2 H2].
  { eapply Forall_impl; [exact Hsets|]. cbn. intros subl (_ & vals' & _ & Hv & _). eauto. }
  exists c1. split; [done|]. rewrite H2. f_equal.
  destruct (canon_loop_spec c symm c c1 Hnd H1) as (Hall1 & Hframe1 & Hlen1).
  destruct (canon_loop_spec c' symm c' c2 Hnd H2) as (Hall2 & Hframe2 & Hlen2).
  apply list_eq. intros i.
  destruct (decide (i ∈ concat symm)) as [Hin|Hout].
  - apply elem_of_concat in Hin as (subl & Hsubl & Hi).
    rewrite Forall_forall in Hall1, Hall2, Hsets.
    destruct (Hall1 subl Hsubl) as (vals1 & Hr1 & Hw1).
    destruct (Hall2 subl Hsubl) as (vals2 & Hr2 & Hw2).
    destruct (Hsets subl Hsubl) as (vals & vals' & Hv & Hv' & Hperm).
    unfold occupants_at in Hv, Hv'. rewrite Hr1 in Hv. rewrite Hr2 in Hv'.
    injection Hv as <-. injection Hv' as <-.
    rewrite (sorted_occ_Permutation vals1 vals2 Hperm) in Hw2.
    + eapply rmapM_getitem_agree; [exact Hw2 | exact Hw1 |]. by apply sorted_nat_elem_of.
    + intros a b Ha Hb. apply rmapM_getitem_elem_of in Hr1 as [_ Hin1].
      rewrite Forall_forall in Hin1. apply Hkeys; by apply Hin1.
  - by rewrite Hframe2, Hframe1, Hframe.
Qed.


(** C2. Symmetry invariance of [canonicalize] fails where a species name
    and a pair of species have the same sort key: ['CO'] (cobalt) and the
    pair [('C','O')] both have the key [[('C',), ('O',)]], because
    [canonical_sort_key] iterates over the characters of a string occupant.
    The stable sort then leaves the two occupants in the order in which it
    finds them, so exchanging positions [0] and [1], both in the index set
    [[0, 1]], changes the canonical form. *)
Theorem canonicalize_key_collision :
  let symm := [[0; 1]] in
  let c := [Species "CO"; Tup ["C"; "O"]] in
  let p_c := [Tup ["C"; "O"]; Species "CO"] in
  exchanged_within symm c p_c
  /\ canonical_sort_key (Species "CO") = canonical_sort_key (Tup ["C"; "O"])
  /\ canonicalize c (Some symm) = Ok [Species "CO"; Tup ["C"; "O"]]
  /\ canonicalize p_c (Some symm) = Ok [Tup ["C"; "O"]; Species "CO"]
  /\ canonicalize p_c (Some symm) <> canonicalize c (Some symm).
Proof.
  cbv zeta. split; [|repeat split; try reflexivity; discriminate].
  split; [reflexivity|]. split.
  - intros i Hi. destruct i as [|[|i]]; [exfalso; apply Hi; cbn..|done];
      repeat constructor.
  - repeat constructor. eexists _, _. repeat split; try reflexivity.
    apply perm_swap.
Qed.

(** ** [_generate_symmetric_group] *)

Lemma hashable_list_to_tuple (c : configuration) :
  forallb hashable (Item <$> _list_to_tuple c) = true.
Proof. induction c as [|[s|l|l] c IH]; cbn; auto. Qed.

(** C7. With the empty symmetry the generator returns the single
    configuration it was given, in tuple form.  With the symmetry absent
    ([None], which [phase_fit] documents and [fit] passes on when a phase
    has no [equivalent_sublattices]) it raises [TypeError] instead. *)
Theorem generate_symmetric_group_empty_absent (c : configuration) :
  _generate_symmetric_group c (Some []) = Some (Ok [Item <$> _list_to_tuple c])
  /\ _generate_symmetric_group c None = Some (Raise TypeError).
Proof.
  split; [|reflexivity].
  unfold _generate_symmetric_group, _generate_symmetric_group_fuel, sorted_set. cbn.
  rewrite decide_True by done.
  cbn. by rewrite hashable_list_to_tuple.
Qed.

(** C6. On an interaction configuration whose occupants are all pairs,
    here [(('A','B'), ('A','B'))] with symmetry [[[0, 1]]], the walk does
    come back to the symmetry after two steps, but the configuration added
    on the way is a tuple of array rows, which [set] cannot hash: the call
    raises [TypeError] and returns no set. *)
Theorem generate_symmetric_group_pairs_unhashable :
  let c := [Tup ["A"; "B"]; Tup ["A"; "B"]] in
  permute (permute [[0; 1]]) = [[0; 1]]
  /\ symmetric_walk 2 c [[0; 1]] [[0; 1]] [Item <$> _list_to_tuple c]
     = Some (Ok [[Item (Tup ["A"; "B"]); Item (Tup ["A"; "B"])];
                 [Row ["A"; "B"]; Row ["A"; "B"]]])
  /\ _generate_symmetric_group c (Some [[0; 1]]) = Some (Raise TypeError).
Proof. cbv zeta. repeat split; reflexivity. Qed.

(** *** The walk is finite

    [roll_left] is the mirror image of [roll1] and is easier to iterate. *)

Lemma roll1_rev {A} (l : list A) : roll1 l = rev (roll_left (rev l)).
Proof.
  destruct l as [|x l _] using rev_ind; [done|].
  unfold roll1. rewrite last_snoc, removelast_last, rev_unit. cbn.
  by rewrite rev_unit, rev_involutive.
Qed.

Lemma iter_roll1_rev {A} (j : nat) (l : list A) :
  Nat.iter j roll1 l = rev (Nat.iter j roll_left (rev l)).
Proof.
  induction j as [|j IH]; [by cbn; rewrite rev_involutive|].
  by rewrite !Nat.iter_succ, IH, roll1_rev, rev_involutive.
Qed.

Lemma iter_roll_left_app {A} (a b : list A) :
  Nat.iter (length a) roll_left (a ++ b) = b ++ a.
Proof.
  revert b. induction a as [|x a IH]; intros b; [by rewrite app_nil_r|].
  cbn [length]. rewrite Nat.iter_succ_r. cbn [roll_left app].
  rewrite <- app_assoc, IH. by rewrite <- app_assoc.
Qed.

(** Rolling a row as many times as it is long gives the row back. *)
Lemma iter_roll1_length {A} (l : list A) : Nat.iter (length l) roll1 l = l.
Proof.
  rewrite iter_roll1_rev. rewrite <- (length_rev l).
  rewrite <- (app_nil_r (rev l)) at 2.
  rewrite iter_roll_left_app. cbn. apply rev_involutive.
Qed.

Lemma roll1_snoc {A} (l : list A) (x : A) : roll1 (l ++ [x]) = x :: l.
Proof. unfold roll1. by rewrite last_snoc, removelast_last. Qed.

Lemma permute_snoc (h y : list nat) (m : list (list nat)) :
  permute (h :: m ++ [y]) = y :: roll1 h :: m.
Proof. unfold permute. by rewrite app_comm_cons, roll1_snoc. Qed.

(** After as many steps as there are rows still to visit, the row that was
    next to the head is at the head and all rows passed are rolled. *)
Lemma iter_permute_rows (u : list (list nat)) :
  forall (h : list nat) (d : list (list nat)),
  Nat.iter (length u) permute (h :: d ++ u)
  = match u with
    | [] => h :: d
    | u1 :: u' => u1 :: (roll1 <$> u') ++ roll1 h :: d
    end.
Proof.
  induction u as [|y u IH] using rev_ind; intros h d; [by rewrite app_nil_r|].
  rewrite length_app, Nat.add_comm. cbn [length Nat.add].
  rewrite Nat.iter_succ_r, app_assoc, permute_snoc.
  specialize (IH y (roll1 h :: d)). change (y :: (roll1 h :: d) ++ u) with
    (y :: roll1 h :: d ++ u) in IH. rewrite IH.
  destruct u as [|u1 u']; [done|].
  cbn. f_equal. rewrite fmap_app. cbn. by rewrite <- app_assoc.
Qed.

(** One turn of the rows rolls every row once. *)
Lemma iter_permute_turn (rows : list (list nat)) :
  Nat.iter (length rows) permute rows = roll1 <$> rows.
Proof.
  destruct rows as [|h u]; [done|].
  cbn [length]. rewrite Nat.iter_succ.
  pose proof (iter_permute_rows u h []) as H. cbn [app] in H. rewrite H.
  destruct u as [|u1 u']; [done|].
  unfold permute. rewrite app_comm_cons, roll1_snoc. done.
Qed.

Lemma iter_fmap_roll1 (n : nat) (rows : list (list nat)) :
  Nat.iter n (fmap roll1) rows = Nat.iter n roll1 <$> rows.
Proof.
  induction n as [|n IH].
  - cbn. by rewrite list_fmap_id.
  - rewrite Nat.iter_succ, IH, <- list_fmap_compose.
    apply list_fmap_ext. by intros _ r _.
Qed.

Lemma iter_permute_turns (n : nat) (rows : list (list nat)) :
  Nat.iter (n * length rows) permute rows = Nat.iter n roll1 <$> rows.
Proof.
  rewrite <- iter_fmap_roll1. revert rows.
  induction n as [|n IH]; intros rows; [done|].
  cbn [Nat.mul]. rewrite Nat.add_comm, Nat.iter_add.
  rewrite iter_permute_turn.
  pose proof (IH (roll1 <$> rows)) as H. rewrite length_fmap in H.
  rewrite H. by rewrite Nat.iter_succ_r.
Qed.

Lemma rectangular_lengths (symm : list (list nat)) :
  rectangular symm = true ->
  Forall (fun r => length r = length (default [] (head symm))) symm.
Proof.
  destruct symm as [|r rs]; cbn; [constructor|].
  intros H. constructor; [done|].
  apply Forall_forall. intros r' Hr'.
  rewrite forallb_forall in H. apply Nat.eqb_eq, H. by apply list_elem_of_In.
Qed.

(** The rotation walk over a rectangular symmetry comes back to the
    symmetry after [rows * columns] steps. *)
Lemma permute_returns (symm : list (list nat)) :
  rectangular symm = true ->
  Nat.iter (length symm * length (default [] (head symm))) permute symm = symm.
Proof.
  intros Hrect. rewrite Nat.mul_comm, iter_permute_turns.
  apply rectangular_lengths in Hrect.
  generalize dependent (length (default [] (head symm))). intros n Hrect.
  induction Hrect as [|r rs Hr _ IH]; [done|].
  cbn [fmap list_fmap]. f_equal; [|exact IH].
  rewrite <- Hr. apply iter_roll1_length.
Qed.

Lemma permute_fixed_empty (symm : list (list nat)) :
  rectangular symm = true ->
  length symm * length (default [] (head symm)) = 0 -> permute symm = symm.
Proof.
  intros Hrect Hz. apply rectangular_lengths in Hrect.
  destruct symm as [|r rs]; [done|]. cbn in *.
  assert (length r = 0) as Hr by lia.
  assert (Forall (fun r' => r' = []) (r :: rs)) as Hall.
  { eapply Forall_impl; [exact Hrect|]. cbn. intros r' Hr'.
    apply nil_length_inv. lia. }
  apply Forall_cons in Hall as [-> Hall]. cbn.
  destruct rs as [|y rs _] using rev_ind; [done|].
  apply Forall_app in Hall as [Hall Hy]. apply Forall_singleton in Hy as ->.
  change ([] :: rs ++ [[]]) with (([] :: rs) ++ [[]: list nat]) at 1.
  rewrite roll1_snoc. f_equal.
  clear -Hall. induction Hall as [|x rs -> _ IH]; [done|]. cbn. by rewrite <- IH.
Qed.

Lemma symmetric_walk_enough_fuel (c : configuration) (symm : list (list nat)) :
  forall (fuel t : nat) (permutation : list (list nat)) (cs : list (list conf_item)),
  1 <= t <= fuel -> Nat.iter t permute permutation = symm ->
  is_Some (symmetric_walk fuel c symm permutation cs).
Proof.
  induction fuel as [|fuel IH]; intros t permutation cs Ht Hback; [lia|].
  cbn. case_decide as Heq; [by eexists|].
  destruct (permuted_configuration c symm (permute permutation)); [|by eexists].
  destruct t as [|[|t]]; [lia| |].
  - cbn in Hback. congruence.
  - apply (IH (S t)); [lia|]. by rewrite <- Nat.iter_succ_r.
Qed.

Lemma symmetric_walk_keeps_first (c : configuration) (symm : list (list nat)) :
  forall (fuel : nat) (permutation : list (list nat)) (x : list conf_item)
         (cs r : list (list conf_item)),
  symmetric_walk fuel c symm permutation (x :: cs) = Some (Ok r) -> x ∈ r.
Proof.
  induction fuel as [|fuel IH]; intros permutation x cs r H; [done|].
  cbn in H. case_decide.
  - injection H as <-. apply elem_of_cons; auto.
  - destruct (permuted_configuration c symm (permute permutation)); [|done].
    by apply IH in H.
Qed.

Lemma sorted_set_elem_of (cs r : list (list conf_item)) (x : list conf_item) :
  sorted_set cs = Ok r -> x ∈ cs -> x ∈ r.
Proof.
  unfold sorted_set. destruct (forallb _ cs); [|done]. intros [= <-] Hx.
  rewrite sorted_Permutation. by apply elem_of_remove_dups.
Qed.

(** For every configuration and every symmetry given as a list of index
    lists the generator comes to an end within [walk_bound] evaluations of
    the loop condition, and a set it returns contains the configuration it
    was given, in tuple form. *)
Theorem generate_symmetric_group_terminates (c : configuration) (symm : list (list nat)) :
  exists r, _generate_symmetric_group c (Some symm) = Some r
            /\ forall l, r = Ok l -> (Item <$> _list_to_tuple c) ∈ l.
Proof.
  unfold _generate_symmetric_group, _generate_symmetric_group_fuel.
  change (default [] (Some symm)) with symm.
  destruct (rectangular symm) eqn:Hrect; [|by eexists].
  destruct (symmetric_walk_enough_fuel c symm (walk_bound symm)
              (Nat.max 1 (length symm * length (default [] (head symm)))) symm
              [Item <$> _list_to_tuple c]) as [w Hw].
  - unfold walk_bound. lia.
  - destruct (length symm * length (default [] (head symm))) as [|m] eqn:Hm.
    + cbn. by apply permute_fixed_empty.
    + replace (Nat.max 1 (S m)) with (S m) by lia.
      rewrite <- Hm. by apply permute_returns.
  - rewrite Hw. destruct w as [cs|e]; [|by eexists].
    eexists. split; [done|]. intros l Hl.
    eapply sorted_set_elem_of; [done|].
    by eapply symmetric_walk_keeps_first.
Qed.

(** ** [_get_data] *)

Lemma rmapM_Forall2 {A B} (f : A -> result B) (l : list A) (bs : list B) :
  rmapM f l = Ok bs -> Forall2 (fun a b => f a = Ok b) l bs.
Proof.
  revert bs. induction l as [|a l IH]; intros bs H; cbn in H.
  - injection H as <-. constructor.
  - apply rbind_Ok in H as (b & Hb & H).
    apply rbind_Ok in H as (bs' & Hbs & H). injection H as <-.
    constructor; auto.
Qed.

Lemma search_elem_of (q : dataset -> result bool) (datasets found : list dataset) :
  search q datasets = Ok found ->
  forall d, d ∈ found -> d ∈ datasets /\ q d = Ok true.
Proof.
  revert found. induction datasets as [|r rest IH]; intros found H d Hd; cbn in H.
  - injection H as <-. by apply elem_of_nil in Hd.
  - apply rbind_Ok in H as (hit & Hhit & H).
    apply rbind_Ok in H as (found' & Hfound & H). injection H as <-.
    destruct hit.
    + apply elem_of_cons in Hd as [->|Hd].
      * split; [apply elem_of_cons; auto | done].
      * destruct (IH _ Hfound d Hd). split; [apply elem_of_cons; auto | done].
    + destruct (IH _ Hfound d Hd). split; [apply elem_of_cons; auto | done].
Qed.

Lemma mask_select_fmap {A} (f : A -> bool) (l : list A) :
  mask_select (f <$> l) l = List.filter f l.
Proof. induction l as [|x l IH]; cbn; [done|]. rewrite IH. by destruct (f x). Qed.

Lemma mask_select_count {A} (f : A -> bool) (l : list A) :
  length (mask_select (f <$> l) (f <$> l)) = length (List.filter f l).
Proof.
  induction l as [|x l IH]; cbn; [done|]. destruct (f x); cbn; by rewrite IH.
Qed.

(** Masking the rows of a plane by the temperatures keeps exactly the rows
    that stand at a temperature the mask keeps. *)
Lemma mask_select_rows {A B} (f : A -> bool) (ts : list A) (rows : list B) :
  mask_select (f <$> ts) rows
  = snd <$> List.filter (fun p => f (fst p)) (zip ts rows).
Proof.
  revert rows. induction ts as [|t ts IH]; intros [|r rows]; cbn; try done.
  rewrite IH. by destruct (f t).
Qed.

Lemma filter_all {A} (f : A -> bool) (l : list A) :
  forallb f l = true -> List.filter f l = l.
Proof.
  induction l as [|x l IH]; cbn; [done|].
  destruct (f x); cbn; [|done]. intros H. by rewrite IH.
Qed.

Lemma mask_select_all {A B} (f : A -> bool) (ts : list A) (rows : list B) :
  forallb f ts = true -> length rows = length ts ->
  mask_select (f <$> ts) rows = rows.
Proof.
  revert rows. induction ts as [|t ts IH]; intros [|r rows]; cbn; try done.
  destruct (f t); cbn; [|done]. intros H [= Hlen]. by rewrite IH.
Qed.

Lemma take_last_axis_shape (idxs : list nat) (a a' : ndarray) :
  take_last_axis idxs a = Ok a' -> well_shaped a ->
  axis_T a' = axis_T a /\ well_shaped a'.
Proof.
  unfold take_last_axis. destruct (forallb _ idxs) eqn:Hidx; [|done].
  intros [= <-] Hwf.
  split; [done|]. unfold well_shaped in *. cbn.
  apply Forall_fmap. eapply Forall_impl; [exact Hwf|].
  cbn. intros plane [Hlen Hrows]. rewrite length_fmap. split; [done|].
  apply Forall_fmap. eapply Forall_impl; [exact Hrows|].
  cbn. intros row Hrow. clear -Hidx Hrow.
  induction idxs as [|i idxs IH]; [done|].
  cbn in Hidx. apply andb_prop in Hidx as [Hi Hidx]. apply Nat.ltb_lt in Hi.
  cbn. destruct (lookup_lt_is_Some_2 row i) as [q ->]; [lia|].
  cbn. by rewrite IH.
Qed.

(** What the loop body does to the temperature axis of one record. *)
Lemma select_data_temperatures (c : configuration) (symmetry : option (list (list nat)))
    (d d' : dataset) :
  select_data c symmetry d = Ok d' ->
  well_shaped (values d) ->
  let Ts := atleast_1d (conditions_T d) in
  exists idxs columns,
    take_last_axis idxs (values d) = Ok columns
    /\ conditions_T d' = T_list (List.filter at_least_T_floor Ts)
    /\ planes (values d')
       = (fun plane => snd <$> List.filter (fun p => at_least_T_floor (fst p)) (zip Ts plane))
         <$> planes columns
    /\ axis_T (values d') = length (atleast_1d (conditions_T d'))
    /\ (forallb at_least_T_floor Ts = true ->
        conditions_T d' = T_list Ts /\ values d' = columns).
Proof.
  intros H Hwf Ts. unfold select_data in H.
  apply rbind_Ok in H as (matching & _ & H).
  apply rbind_Ok in H as (columns & Hcol & H).
  apply rbind_Ok in H as (confs' & _ & H).
  apply rbind_Ok in H as (occ' & _ & H).
  apply rbind_Ok in H as (values2 & Hmask & H).
  injection H as <-. cbn.
  exists (mask_positions matching), columns. split; [done|].
  fold Ts in Hmask |- *.
  unfold mask_T_axis in Hmask. case_decide as Hlen; [|done].
  injection Hmask as <-. cbn.
  destruct (take_last_axis_shape _ _ _ Hcol Hwf) as [HT Hwf'].
  rewrite mask_select_fmap, mask_select_count.
  split; [done|]. split; [|split; [done|]].
  - apply list_fmap_ext. intros _ plane _. apply mask_select_rows.
  - intros Hall. rewrite (filter_all _ _ Hall). split; [done|].
    destruct columns as [nT nC pl]. cbn in *. f_equal.
    + rewrite length_fmap in Hlen. done.
    + rewrite <- (list_fmap_id pl) at 2. apply Forall_fmap_ext.
      eapply Forall_impl; [exact Hwf'|]. cbn. intros plane [Hp _].
      apply mask_select_all; [done|]. rewrite length_fmap in Hlen. lia.
Qed.

(** C8. Every record that [_get_data] returns comes from a stored record
    whose temperatures below 298.15 K have been dropped, together with the
    rows of [values] that stand at those temperatures, in every plane; the
    temperature axis of [values] is then as long as the temperature array,
    and a record with no temperature below 298.15 K keeps its temperatures
    and its (column-selected) values as they are. *)
Theorem get_data_temperature_filter (comps : list string) (phase_name : string)
    (c : configuration) (symmetry : option (list (list nat)))
    (datasets : list dataset) (prop : string) (out : list dataset) :
  Forall (fun d => well_shaped (values d)) datasets ->
  _get_data comps phase_name c symmetry datasets prop = Ok out ->
  Forall (fun d' => exists d idxs columns,
    d ∈ datasets
    /\ take_last_axis idxs (values d) = Ok columns
    /\ let Ts := atleast_1d (conditions_T d) in
       conditions_T d' = T_list (List.filter at_least_T_floor Ts)
       /\ Forall (fun t => (T_floor <= t)%Q) (atleast_1d (conditions_T d'))
       /\ planes (values d')
          = (fun plane =>
               snd <$> List.filter (fun p => at_least_T_floor (fst p)) (zip Ts plane))
            <$> planes columns
       /\ axis_T (values d') = length (atleast_1d (conditions_T d'))
       /\ (forallb at_least_T_floor Ts = true ->
           conditions_T d' = T_list Ts /\ values d' = columns)) out.
Proof.
  intros Hwf H. unfold _get_data in H.
  apply rbind_Ok in H as (desired & Hsearch & H).
  apply rmapM_Forall2 in H.
  pose proof (search_elem_of _ _ _ Hsearch) as Hfound.
  clear Hsearch. induction H as [|d d' desired out Hd _ IH]; [constructor|].
  constructor.
  - destruct (Hfound d) as [Hin _]; [apply elem_of_cons; auto|].
    rewrite Forall_forall in Hwf.
    destruct (select_data_temperatures _ _ _ _ Hd (Hwf d Hin))
      as (idxs & columns & Hcol & HT & Hpl & Hax & Hsame).
    exists d, idxs, columns. repeat split; try done; try (by apply Hsame).
    rewrite HT. cbn. apply Forall_forall. intros t Ht.
    apply list_elem_of_In, filter_In in Ht as [_ Ht]. by apply Qle_bool_iff.
  - apply IH. intros x Hx. apply Hfound, elem_of_cons; auto.
Qed.


Lemma get_data_temperature_filter_witness :
  Forall (fun d => well_shaped (values d)) [heat_capacity_record]
  /\ _get_data ["A"; "B"] "LIQUID" [Species "B"] None [heat_capacity_record] "CPM_FORM"
     = Ok [mk_dataset "CPM_FORM" ["A"; "B"] ["LIQUID"]
             (mk_solver (Some "manual") [[Species "B"]] None)
             (T_list [300; 400]%Q)
             (mk_ndarray 2 1 [[[4]; [8]]%Q])]
  /\ Forall (fun d' => exists d idxs columns,
       d ∈ [heat_capacity_record]
       /\ take_last_axis idxs (values d) = Ok columns
       /\ let Ts := atleast_1d (conditions_T d) in
          conditions_T d' = T_list (List.filter at_least_T_floor Ts)
          /\ Forall (fun t => (T_floor <= t)%Q) (atleast_1d (conditions_T d'))
          /\ planes (values d')
             = (fun plane =>
                  snd <$> List.filter (fun p => at_least_T_floor (fst p)) (zip Ts plane))
               <$> planes columns
          /\ axis_T (values d') = length (atleast_1d (conditions_T d'))
          /\ (forallb at_least_T_floor Ts = true ->
              conditions_T d' = T_list Ts /\ values d' = columns))
       [mk_dataset "CPM_FORM" ["A"; "B"] ["LIQUID"]
          (mk_solver (Some "manual") [[Species "B"]] None)
          (T_list [300; 400]%Q)
          (mk_ndarray 2 1 [[[4]; [8]]%Q])].
Proof.
  assert (Forall (fun d => well_shaped (values d)) [heat_capacity_record]) as Hwf.
  { repeat constructor. }
  split; [exact Hwf|]. split; [reflexivity|].
  apply (get_data_temperature_filter ["A"; "B"] "LIQUID" [Species "B"] None
           [heat_capacity_record] "CPM_FORM"); [exact Hwf | reflexivity].
Defined.

(** ** [_fit_parameters] *)

Lemma rfoldM_app {A S} (f : S -> A -> result S) (l1 l2 : list A) (s : S) :
  rfoldM f (l1 ++ l2) s = s' ← rfoldM f l1 s; rfoldM f l2 s'.
Proof.
  revert s. induction l1 as [|a l1 IH]; intros s; cbn; [done|].
  destruct (f s a); cbn; [apply IH | done].
Qed.

Section FitParametersFacts.
Context {F feature : Type} `{EqDecision feature}.
Variables (zero : F) (add sub mul : F -> F -> F) (of_int : nat -> F).
Variables (ltb : F -> F -> bool) (isnan : F -> bool).
Variable log : F -> F.
Variable lstsq : list (list F) -> list F -> list F.

(** On numbers that are not NaN, [<] is a strict weak order. *)
Hypothesis ltb_irrefl : forall a, ltb a a = false.
Hypothesis ltb_trans : forall a b c, ltb a b = true -> ltb b c = true -> ltb a c = true.
Hypothesis ltb_negtrans : forall a b c,
  isnan b = false -> ltb a c = true -> ltb a b = true \/ ltb b c = true.

Lemma argmin_scan_spec (l : list F) :
  forall (rest : list F) (i : nat) (mp : F) (min_ind : nat),
  Forall (fun s => isnan s = false) l ->
  l = take i l ++ rest -> i <= length l ->
  l !! min_ind = Some mp -> min_ind < i ->
  (forall j x, j < i -> l !! j = Some x -> ltb x mp = false) ->
  (forall j x, j < min_ind -> l !! j = Some x -> ltb mp x = true) ->
  let b := argmin_scan ltb isnan rest i mp min_ind in
  exists sb, l !! b = Some sb
    /\ (forall j x, l !! j = Some x -> ltb x sb = false)
    /\ (forall j x, j < b -> l !! j = Some x -> ltb sb x = true).
Proof using ltb_irrefl ltb_trans ltb_negtrans.
  intros rest. induction rest as [|s rest IH]; intros i mp min_ind Hnan Hl Hi Hmp Hlt Hmin Hfirst.
  - cbn. exists mp. split; [done|]. split; [|done].
    intros j x Hj. apply (Hmin j); [|done].
    rewrite app_nil_r in Hl. apply lookup_lt_Some in Hj.
    rewrite Hl, length_take in Hj. lia.
  - assert (l !! i = Some s) as Hs.
    { rewrite Hl at 1. rewrite lookup_app_r by (rewrite length_take; lia).
      rewrite length_take. replace (i - i `min` length l) with 0 by lia. done. }
    assert (isnan s = false) as Hsn.
    { rewrite Forall_forall in Hnan. apply Hnan. by eapply list_elem_of_lookup_2. }
    assert (l = take (S i) l ++ rest) as Hl'.
    { rewrite (take_S_r _ _ _ Hs), <- app_assoc. exact Hl. }
    assert (S i <= length l) as Hi' by (apply lookup_lt_Some in Hs; lia).
    cbn. rewrite Hsn. destruct (ltb s mp) eqn:Hsmp.
    + apply IH; try done; try lia.
      * intros j x Hj Hx. destruct (decide (j = i)) as [->|Hne].
        -- rewrite Hs in Hx. injection Hx as <-. apply ltb_irrefl.
        -- destruct (ltb x s) eqn:Hxs; [|done].
           rewrite <- (Hmin j x); [|lia|done]. symmetry. by eapply ltb_trans.
      * intros j x Hj Hx.
        assert (isnan x = false) as Hxn.
        { rewrite Forall_forall in Hnan. apply Hnan. by eapply list_elem_of_lookup_2. }
        destruct (ltb_negtrans s x mp Hxn Hsmp) as [Hok|Hbad]; [done|].
        rewrite (Hmin j x) in Hbad; [done|lia|done].
    + apply IH; try done; try lia.
      intros j x Hj Hx. destruct (decide (j = i)) as [->|Hne].
      * rewrite Hs in Hx. by injection Hx as <-.
      * apply (Hmin j); [lia|done].
Qed.

(** [np.argmin] returns the first position of the minimum. *)
Lemma argmin_spec (l : list F) :
  l <> [] -> Forall (fun s => isnan s = false) l ->
  exists b sb, argmin ltb isnan l = Ok b /\ l !! b = Some sb
    /\ (forall j x, l !! j = Some x -> ltb x sb = false)
    /\ (forall j x, j < b -> l !! j = Some x -> ltb sb x = true).
Proof using ltb_irrefl ltb_trans ltb_negtrans.
  intros Hne Hnan. destruct l as [|s l]; [done|]. clear Hne.
  pose proof (Forall_inv Hnan) as Hs. cbn in Hs. cbn. rewrite Hs.
  destruct (argmin_scan_spec (s :: l) l 1 s 0) as (sb & Hsb & Hmin & Hfirst);
    try done; try (cbn; lia).
  - intros [|j] x Hj Hx; [|lia]. cbn in Hx. injection Hx as <-. apply ltb_irrefl.
  - eauto 10.
Qed.

(** The [results] array after the loop has stored the coefficients of
    the first [c] nested models: row [k - 1] holds the [k] coefficients
    of model [k] followed by zeros, and the rows below are still zero. *)
Lemma store_loop (coef : nat -> list F) (n c : nat) :
  c <= n -> (forall k, 1 <= k <= c -> length (coef k) = k) ->
  rfoldM (fun results num_params =>
            store_coefficients zero results num_params (coef num_params))
         (seq 1 c) (replicate n (replicate n zero))
  = Ok (((fun k => coef k ++ replicate (n - k) zero) <$> seq 1 c)
        ++ replicate (n - c) (replicate n zero)).
Proof.
  induction c as [|c IH]; intros Hc Hlen.
  - cbn. by rewrite Nat.sub_0_r.
  - rewrite seq_S, rfoldM_app, IH by (try lia; intros; apply Hlen; lia).
    cbn [mbind result_bind rfoldM]. rewrite fmap_app. cbn [fmap list_fmap].
    unfold store_coefficients. replace (1 + c - 1) with c by lia.
    unfold getitem. rewrite lookup_app_r by (rewrite length_fmap, length_seq; lia).
    rewrite length_fmap, length_seq, Nat.sub_diag.
    replace (n - c) with (S (n - S c)) by lia. cbn [replicate lookup list_lookup].
    cbn [mbind result_bind].
    rewrite length_take, length_replicate, Hlen by lia.
    rewrite decide_True by lia.
    rewrite insert_app_r_alt by (rewrite length_fmap, length_seq; lia).
    rewrite length_fmap, length_seq, Nat.sub_diag. cbn [insert list_insert].
    rewrite drop_replicate, <- app_assoc. done.
Qed.

Lemma lookup_fmap_seq {B} (f : nat -> B) (n j : nat) :
  j < n -> (f <$> seq 1 n) !! j = Some (f (S j)).
Proof. intros Hj. by rewrite list_lookup_fmap, lookup_seq_lt. Qed.

(** The selector returns the coefficients of the first model of minimum
    score, padded with zeros. *)
Lemma fit_parameters_argmin (feature_matrix : list (list F))
    (data_quantities : list F) (feature_tuple : list feature) (N : nat) :
  let coef := coefficients lstsq feature_matrix data_quantities in
  let aic_of := score zero add sub mul of_int log lstsq feature_matrix data_quantities in
  1 <= N -> length feature_tuple = N ->
  (forall k, 1 <= k <= N -> length (coef k) = k) ->
  (forall k, 1 <= k <= N -> isnan (aic_of k) = false) ->
  exists k, 1 <= k <= N
    /\ _fit_parameters zero add sub mul of_int ltb isnan log lstsq
         N feature_matrix data_quantities feature_tuple
       = Ok (dict_update [] (zip feature_tuple (coef k ++ replicate (N - k) zero)))
    /\ aic_of k = aic add mul of_int log k (length feature_matrix)
                    (residual_sum_of_squares zero add sub mul
                       (first_columns k feature_matrix) (coef k) data_quantities)
    /\ (forall j, 1 <= j <= N -> ltb (aic_of j) (aic_of k) = false)
    /\ (forall j, 1 <= j < k -> ltb (aic_of k) (aic_of j) = true).
Proof using ltb_irrefl ltb_trans ltb_negtrans.
  intros coef aic_of HN Hfeat Hcoef Hnan.
  destruct (argmin_spec (aic_of <$> seq 1 N)) as (b & sb & Hb & Hsb & Hmin & Hfirst).
  { destruct N; [lia|]. done. }
  { apply Forall_fmap, Forall_forall. intros k Hk. apply elem_of_seq in Hk.
    apply Hnan. lia. }
  assert (b < N) as HbN.
  { apply lookup_lt_Some in Hsb. by rewrite length_fmap, length_seq in Hsb. }
  rewrite lookup_fmap_seq in Hsb by done. injection Hsb as <-.
  exists (S b). split; [lia|]. split; [|split; [|split]].
  - unfold _fit_parameters. rewrite Hfeat.
    fold coef. rewrite (store_loop coef N N) by (try lia; done).
    cbn [mbind result_bind]. fold aic_of. rewrite Hb. cbn [mbind result_bind].
    rewrite Nat.sub_diag, app_nil_r. unfold getitem.
    by rewrite lookup_fmap_seq.
  - unfold aic_of, score, first_columns. by rewrite length_fmap.
  - intros j Hj. apply (Hmin (j - 1)). rewrite lookup_fmap_seq by lia.
    do 2 f_equal. lia.
  - intros j Hj. apply (Hfirst (j - 1)); [lia|]. rewrite lookup_fmap_seq by lia.
    do 2 f_equal. lia.
Qed.

(** The score of the code is the formula written out: the number of
    rows of the nested matrix is that of the feature matrix, and a row of
    the nested matrix is the row cut to its first columns. *)
Lemma score_formula (feature_matrix : list (list F)) (data_quantities : list F)
    (k : nat) :
  score zero add sub mul of_int log lstsq feature_matrix data_quantities k
  = add (of_int (2 * k))
      (mul (of_int (length feature_matrix))
         (log (foldl add zero
                 (zip_with
                    (fun row y =>
                       let r := sub (foldl add zero
                                       (zip_with mul (take k row)
                                          (lstsq (take k <$> feature_matrix)
                                                 data_quantities))) y in
                       mul r r)
                    feature_matrix data_quantities)))).
Proof using Type.
  unfold score, aic, residual_sum_of_squares, coefficients, first_columns, dot.
  rewrite length_fmap. do 4 f_equal.
  generalize (lstsq (take k <$> feature_matrix) data_quantities). intros coef.
  revert data_quantities.
  induction feature_matrix as [|row fm IH]; intros [|y ys]; cbn; try done.
  by rewrite IH.
Qed.

(** An [OrderedDict] built from pairs with distinct keys is the list of
    the pairs. *)
Lemma dict_set_fresh {V} (d : list (feature * V)) (k : feature) (v : V) :
  k ∉ fst <$> d -> dict_set d k v = d ++ [(k, v)].
Proof using Type.
  induction d as [|[k' v'] d IH]; cbn; [done|].
  intros Hk. apply not_elem_of_cons in Hk as [Hne Hk].
  rewrite decide_False by done. by rewrite IH.
Qed.

Lemma dict_update_distinct {V} (d items : list (feature * V)) :
  NoDup (fst <$> (d ++ items)) -> dict_update d items = d ++ items.
Proof using Type.
  revert d. induction items as [|[k v] items IH]; intros d Hnd.
  - by rewrite app_nil_r.
  - unfold dict_update in *. cbn.
    assert (k ∉ fst <$> d) as Hk.
    { rewrite fmap_app in Hnd. apply NoDup_app in Hnd as (_ & Hd & _).
      intros Hin. apply (Hd k Hin). cbn. apply elem_of_cons; auto. }
    rewrite dict_set_fresh by done.
    rewrite IH; [by rewrite <- app_assoc|].
    by rewrite <- app_assoc.
Qed.

Lemma fst_zip_take {A B} (l : list A) (r : list B) :
  length l = length r -> fst <$> zip l r = l.
Proof using Type.
  revert r. induction l as [|x l IH]; intros [|y r] Hlen; cbn in *; try done.
  f_equal. apply IH. lia.
Qed.

(** C1. On a feature matrix with [M] rows and [N >= 1] columns, a
    response vector and [N] feature identifiers, the selector fits the
    nested models [k = 1 .. N] on the first [k] columns, with
    coefficients [beta k] from the least-squares solver, and scores model
    [k] by [AIC k = 2*k + M*ln(RSS k)], where [RSS k] is the sum over the
    rows of the squares of the prediction of the row minus the response.
    It returns the dictionary that gives every feature identifier its
    coefficient under a model [k] of minimum [AIC], zero beyond [k]: with
    distinct identifiers, the list of the identifiers paired with these
    coefficients.  Among the models of minimum [AIC], [k] is the
    smallest.  The formula is written out in the arithmetic of the
    numbers; no [AIC] is NaN, and the solver returns one coefficient per
    column. *)
Theorem fit_parameters_min_aic (feature_matrix : list (list F))
    (data_quantities : list F) (feature_tuple : list feature) (N : nat) :
  let M := length feature_matrix in
  let beta k := lstsq (take k <$> feature_matrix) data_quantities in
  let prediction k row := foldl add zero (zip_with mul (take k row) (beta k)) in
  let RSS k :=
    foldl add zero
      (zip_with (fun row y => let r := sub (prediction k row) y in mul r r)
                feature_matrix data_quantities) in
  let AIC k := add (of_int (2 * k)) (mul (of_int M) (log (RSS k))) in
  1 <= N -> length feature_tuple = N ->
  (forall k, 1 <= k <= N -> length (beta k) = k) ->
  (forall k, 1 <= k <= N -> isnan (AIC k) = false) ->
  exists k, 1 <= k <= N
    /\ _fit_parameters zero add sub mul of_int ltb isnan log lstsq
         N feature_matrix data_quantities feature_tuple
       = Ok (dict_update [] (zip feature_tuple (beta k ++ replicate (N - k) zero)))
    /\ (NoDup feature_tuple ->
        _fit_parameters zero add sub mul of_int ltb isnan log lstsq
          N feature_matrix data_quantities feature_tuple
        = Ok (zip feature_tuple (beta k ++ replicate (N - k) zero)))
    /\ (forall j, 1 <= j <= N -> ltb (AIC j) (AIC k) = false)
    /\ (forall j, 1 <= j < k -> ltb (AIC k) (AIC j) = true).
Proof using ltb_irrefl ltb_trans ltb_negtrans.
  intros M beta prediction RSS AIC HN Hfeat Hcoef Hnan.
  assert (forall k, score zero add sub mul of_int log lstsq
                      feature_matrix data_quantities k = AIC k) as Hscore.
  { intros k. apply score_formula. }
  destruct (fit_parameters_argmin feature_matrix data_quantities feature_tuple N
              HN Hfeat Hcoef) as (k & Hk & Hres & _ & Hmin & Hfirst).
  { intros k Hk. rewrite Hscore. by apply Hnan. }
  exists k. split; [done|]. split; [exact Hres|]. split; [|split].
  - intros Hnd. rewrite Hres. f_equal.
    assert (length feature_tuple = length (beta k ++ replicate (N - k) zero)) as Hlen.
    { rewrite length_app, length_replicate.
      rewrite (Hcoef k Hk). lia. }
    apply (dict_update_distinct []). cbn. by rewrite fst_zip_take.
  - intros j Hj. rewrite <- !Hscore. by apply Hmin.
  - intros j Hj. rewrite <- !Hscore. by apply Hfirst.
Qed.

(** Minus infinity, the value of [np.log(0.0)]: it absorbs the products
    and sums of the score and nothing is below it. *)
Variable neg_inf : F.
Hypothesis log_zero : log zero = neg_inf.
Hypothesis mul_neg_inf : forall m, 1 <= m -> mul (of_int m) neg_inf = neg_inf.
Hypothesis add_neg_inf : forall n, add (of_int n) neg_inf = neg_inf.
Hypothesis ltb_neg_inf : forall a, ltb a neg_inf = false.

(** C4. When the first column reproduces the response exactly, so that
    the one-parameter model has a residual sum of squares of exactly
    zero, [np.log] gives minus infinity (NumPy warns, it does not raise),
    the score of the first model is minus infinity and [np.argmin] stops
    at it: the selector returns the coefficient [a] of the one-parameter
    fit for the first feature and zero for every other feature. *)
Theorem fit_parameters_exact_first_column (feature_matrix : list (list F))
    (data_quantities : list F) (feature_tuple : list feature) (N : nat) :
  let coef := coefficients lstsq feature_matrix data_quantities in
  let aic_of := score zero add sub mul of_int log lstsq feature_matrix data_quantities in
  1 <= N -> length feature_tuple = N -> 1 <= length feature_matrix ->
  (forall k, 1 <= k <= N -> length (coef k) = k) ->
  (forall k, 1 <= k <= N -> isnan (aic_of k) = false) ->
  residual_sum_of_squares zero add sub mul
    (first_columns 1 feature_matrix) (coef 1) data_quantities = zero ->
  aic_of 1 = neg_inf
  /\ exists a, coef 1 = [a]
    /\ _fit_parameters zero add sub mul of_int ltb isnan log lstsq
         N feature_matrix data_quantities feature_tuple
       = Ok (dict_update [] (zip feature_tuple (a :: replicate (N - 1) zero))).
Proof using ltb_irrefl ltb_trans ltb_negtrans log_zero mul_neg_inf add_neg_inf ltb_neg_inf.
  intros coef aic_of HN Hfeat HM Hcoef Hnan Hrss.
  assert (aic_of 1 = neg_inf) as Hscore.
  { unfold aic_of, score, aic. fold coef. rewrite Hrss, log_zero.
    unfold first_columns. rewrite length_fmap, mul_neg_inf by done.
    apply add_neg_inf. }
  split; [done|].
  destruct (fit_parameters_argmin feature_matrix data_quantities feature_tuple N
              HN Hfeat Hcoef Hnan) as (k & Hk & Hres & _ & _ & Hfirst).
  fold coef aic_of in Hres, Hfirst.
  assert (k = 1) as ->.
  { destruct (decide (k = 1)) as [|Hne]; [done|].
    specialize (Hfirst 1 ltac:(lia)). by rewrite Hscore, ltb_neg_inf in Hfirst. }
  specialize (Hcoef 1 ltac:(lia)). fold coef in Hcoef.
  destruct (coef 1) as [|a [|??]] eqn:Hc; try done.
  exists a. split; [done|]. exact Hres.
Qed.
End FitParametersFacts.

Lemma xltb_irrefl (a : xnum) : xltb a a = false.
Proof. destruct a; cbn; [done|]. apply Z.ltb_irrefl. Qed.

Lemma xltb_trans (a b c : xnum) : xltb a b = true -> xltb b c = true -> xltb a c = true.
Proof. destruct a, b, c; cbn; try done. rewrite !Z.ltb_lt. lia. Qed.

Lemma xltb_negtrans (a b c : xnum) :
  xltb a c = true -> xltb a b = true \/ xltb b c = true.
Proof.
  destruct a, b, c; cbn; auto. rewrite !Z.ltb_lt. lia.
Qed.

Lemma fit_parameters_min_aic_witness :
  let fm := [[Num 1; Num 0; Num 0]; [Num 0; Num 1; Num 0];
             [Num 0; Num 0; Num 1]; [Num 0; Num 0; Num 0]] in
  let y := [Num 2; Num 8; Num 1; Num 2] in
  let fit := @_fit_parameters xnum string _ (Num 0) xadd xsub xmul xof_int
               xltb (fun _ => false) xlog orthonormal_lstsq 3 fm y ["a"; "b"; "c"] in
  let beta k := orthonormal_lstsq (take k <$> fm) y in
  let prediction k row := foldl xadd (Num 0) (zip_with xmul (take k row) (beta k)) in
  let RSS k :=
    foldl xadd (Num 0)
      (zip_with (fun row y => let r := xsub (prediction k row) y in xmul r r) fm y) in
  let AIC k := xadd (xof_int (2 * k)) (xmul (xof_int (length fm)) (xlog (RSS k))) in
  fit = Ok [("a", Num 2); ("b", Num 8); ("c", Num 0)]
  /\ [beta 1; beta 2; beta 3] = [[Num 2]; [Num 2; Num 8]; [Num 2; Num 8; Num 1]]
  /\ [AIC 1; AIC 2; AIC 3] = [Num 26; Num 12; Num 14]
  /\ exists k, 1 <= k <= 3
      /\ fit = Ok (dict_update [] (zip ["a"; "b"; "c"] (beta k ++ replicate (3 - k) (Num 0))))
      /\ (NoDup ["a"; "b"; "c"] ->
          fit = Ok (zip ["a"; "b"; "c"] (beta k ++ replicate (3 - k) (Num 0))))
      /\ (forall j, 1 <= j <= 3 -> xltb (AIC j) (AIC k) = false)
      /\ (forall j, 1 <= j < k -> xltb (AIC k) (AIC j) = true).
Proof.
  cbv zeta. split; [reflexivity|]. split; [reflexivity|]. split; [reflexivity|].
  apply (fit_parameters_min_aic (feature := string) (Num 0) xadd xsub xmul xof_int
           xltb (fun _ => false) xlog orthonormal_lstsq
           xltb_irrefl xltb_trans (fun a b c _ => xltb_negtrans a b c)).
  - lia.
  - reflexivity.
  - intros k Hk. assert (k = 1 \/ k = 2 \/ k = 3) as [-> | [-> | ->]] by lia; reflexivity.
  - reflexivity.
Defined.

Lemma fit_parameters_exact_first_column_witness :
  let fm := [[Num 1; Num 1]; [Num 2; Num 0]; [Num 3; Num 1]] in
  let y := [Num 2; Num 4; Num 6] in
  residual_sum_of_squares (Num 0) xadd xsub xmul (first_columns 1 fm)
    (coefficients scale_first_column fm y 1) y = Num 0
  /\ score (Num 0) xadd xsub xmul xof_int xlog scale_first_column fm y 1 = NegInf
  /\ exists a, coefficients scale_first_column fm y 1 = [a]
      /\ xfit 2 fm y ["a"; "b"]
         = Ok (dict_update [] (zip ["a"; "b"] (a :: replicate (2 - 1) (Num 0)))).
Proof.
  cbv zeta. split; [reflexivity|].
  apply (fit_parameters_exact_first_column (feature := string) (Num 0) xadd xsub xmul
           xof_int xltb (fun _ => false) xlog scale_first_column
           xltb_irrefl xltb_trans (fun a b c _ => xltb_negtrans a b c) NegInf).
  - reflexivity.
  - intros m Hm. reflexivity.
  - intros n. reflexivity.
  - intros [|z]; reflexivity.
  - lia.
  - reflexivity.
  - cbn; lia.
  - intros k Hk. assert (k = 1 \/ k = 2) as [-> | ->] by lia; reflexivity.
  - reflexivity.
  - reflexivity.
Defined.

(** ** Dictionaries *)

Section DictFacts.
Context {K V : Type} `{EqDecision K}.

Lemma dict_get_set (d : list (K * V)) (k k' : K) (v : V) :
  dict_get (dict_set d k v) k' = if decide (k = k') then Some v else dict_get d k'.
Proof.
  induction d as [|[k0 v0] d IH]; cbn.
  - by destruct (decide (k = k')).
  - destruct (decide (k0 = k)) as [->|Hne]; cbn.
    + by destruct (decide (k = k')).
    + destruct (decide (k0 = k')) as [->|Hne'].
      * by rewrite decide_False by done.
      * exact IH.
Qed.

(** Updating a dict leaves the keys that are not updated as they are. *)
Lemma dict_get_update_other (d items : list (K * V)) (k : K) :
  k ∉ fst <$> items -> dict_get (dict_update d items) k = dict_get d k.
Proof.
  revert d. induction items as [|[k0 v0] items IH]; intros d Hk; [done|].
  cbn in Hk. apply not_elem_of_cons in Hk as [Hne Hk].
  unfold dict_update in *. cbn. rewrite IH by done.
  rewrite dict_get_set. by rewrite decide_False.
Qed.

Lemma dict_get_update_const (d : list (K * V)) (ks : list K) (v : V) (k : K) :
  k ∈ ks -> dict_get (dict_update d ((fun k => (k, v)) <$> ks)) k = Some v.
Proof.
  revert d. induction ks as [|k0 ks IH]; intros d Hk; [by apply elem_of_nil in Hk|].
  unfold dict_update in *. cbn.
  destruct (decide (k ∈ ks)) as [Hin|Hnin]; [by apply IH|].
  apply elem_of_cons in Hk as [->|Hk]; [|done].
  pose proof (dict_get_update_other (dict_set d k0 v) ((fun k => (k, v)) <$> ks) k0) as H.
  unfold dict_update in H. rewrite H.
  - rewrite dict_get_set. by rewrite decide_True.
  - by rewrite <- list_fmap_compose, list_fmap_id.
Qed.

Lemma dict_update_keys (d items : list (K * V)) (k : K) :
  k ∈ fst <$> dict_update d items -> k ∈ fst <$> d \/ k ∈ fst <$> items.
Proof.
  revert d. induction items as [|[k0 v0] items IH]; intros d Hk; [by left|].
  unfold dict_update in *. cbn in Hk. apply IH in Hk as [Hk|Hk].
  - clear IH. induction d as [|[k1 v1] d IHd]; cbn in *.
    + apply list_elem_of_singleton in Hk as ->. right. apply elem_of_cons; auto.
    + destruct (decide (k1 = k0)) as [->|Hne]; cbn in Hk.
      * apply elem_of_cons in Hk as [->|Hk].
        -- left. apply elem_of_cons; auto.
        -- left. apply elem_of_cons; auto.
      * apply elem_of_cons in Hk as [->|Hk].
        -- left. apply elem_of_cons; auto.
        -- destruct (IHd Hk) as [?|?]; [left; apply elem_of_cons; auto | by right].
  - right. cbn. apply elem_of_cons; auto.
Qed.

Lemma dict_get_elem_of {W} (d : list (K * list W)) (k : K) (l : list W) (w : W) :
  dict_get d k = Some l -> w ∈ l -> w ∈ concat (snd <$> d).
Proof.
  induction d as [|[k0 l0] d IH]; cbn; [done|].
  destruct (decide (k0 = k)).
  - intros [= ->] Hw. apply elem_of_app; auto.
  - intros Hg Hw. apply elem_of_app; auto.
Qed.
End DictFacts.

(** ** [fit_formation_energy] *)

Lemma search_none (q : dataset -> result bool) (datasets : list dataset) :
  (forall record, record ∈ datasets -> q record = Ok false) ->
  search q datasets = Ok [].
Proof.
  induction datasets as [|r rest IH]; intros H; cbn; [done|].
  rewrite (H r) by (apply elem_of_cons; auto). cbn.
  rewrite IH; [done|]. intros; apply H, elem_of_cons; auto.
Qed.

Lemma get_data_none (comps : list string) (phase_name : string) (c : configuration)
    (symmetry : option (list (list nat))) (datasets : list dataset) (prop : string) :
  (forall record, record ∈ datasets ->
     query comps phase_name c symmetry prop record = Ok false) ->
  _get_data comps phase_name c symmetry datasets prop = Ok [].
Proof. intros H. unfold _get_data. by rewrite search_none. Qed.

(** The empty list comes back only when the query is false on every
    record: a record on which it raises makes [_get_data] raise. *)
Lemma search_nil_inv (q : dataset -> result bool) (datasets : list dataset) :
  search q datasets = Ok [] ->
  forall record, record ∈ datasets -> q record = Ok false.
Proof.
  induction datasets as [|r rest IH]; intros H record Hr.
  - by apply elem_of_nil in Hr.
  - cbn in H. apply rbind_Ok in H as (hit & Hhit & H).
    apply rbind_Ok in H as (found & Hfound & H).
    destruct hit; [by injection H|]. injection H as ->.
    apply elem_of_cons in Hr as [->|Hr]; [done|]. by apply IH.
Qed.

Lemma get_data_nil_inv (comps : list string) (phase_name : string) (c : configuration)
    (symmetry : option (list (list nat))) (datasets : list dataset) (prop : string) :
  _get_data comps phase_name c symmetry datasets prop = Ok [] ->
  forall record, record ∈ datasets ->
    query comps phase_name c symmetry prop record = Ok false.
Proof.
  unfold _get_data. intros H.
  apply rbind_Ok in H as (desired & Hsearch & H).
  apply rmapM_Ok_length in H. destruct desired; [|done].
  by apply search_nil_inv.
Qed.

Lemma elem_of_fst_zip {A B} (l : list A) (r : list B) (a : A) :
  a ∈ fst <$> zip l r -> a ∈ l.
Proof.
  revert r. induction l as [|x l IH]; intros [|y r]; cbn; try done.
  - intros H. by apply elem_of_nil in H.
  - intros H. apply elem_of_cons in H as [->|H]; apply elem_of_cons; eauto.
Qed.

Section FitFormationEnergyFacts.
Context {F expr : Type} `{EqDecision expr}.
Variables (zero : F) (add sub mul : F -> F -> F) (of_int : nat -> F).
Variables (ltb : F -> F -> bool) (isnan : F -> bool).
Variable log : F -> F.
Variable lstsq : list (list F) -> list F -> list F.
Variable of_Q : Q -> F.
Variable expr_mul : expr -> expr -> expr.
Variables (T_log_T T_squared T_inverse T_cubed T_linear S_One : expr).
Variable redlich_kister_features : list expr.
Variable _build_feature_matrix : string -> list expr -> list dataset -> list (list F).
Variable formation_response :
  string -> list dataset -> option (@endmember_map expr) -> list expr -> list (expr * F)
  -> result (list F).

Abbreviation fit_property_ :=
  (fit_property zero add sub mul of_int ltb isnan log lstsq of_Q
                _build_feature_matrix formation_response).
Abbreviation fit_formation_energy_ :=
  (fit_formation_energy zero add sub mul of_int ltb isnan log lstsq of_Q expr_mul
     T_log_T T_squared T_inverse T_cubed T_linear S_One redlich_kister_features
     _build_feature_matrix formation_response).
Abbreviation prepare_features_ :=
  (prepare_features expr_mul T_log_T T_squared T_inverse T_cubed T_linear S_One
     redlich_kister_features).

Lemma fit_parameters_keys (columns : nat) (fm : list (list F)) (y : list F)
    (feature_tuple : list expr) (fitted : list (expr * F)) (f : expr) :
  _fit_parameters zero add sub mul of_int ltb isnan log lstsq columns fm y feature_tuple
  = Ok fitted ->
  f ∈ fst <$> fitted -> f ∈ feature_tuple.
Proof.
  unfold _fit_parameters. intros H Hf.
  apply rbind_Ok in H as (results & _ & H).
  apply rbind_Ok in H as (best & _ & H).
  apply rbind_Ok in H as (row & _ & H). injection H as <-.
  apply dict_update_keys in Hf as [Hf|Hf]; [by apply elem_of_nil in Hf|].
  by eapply elem_of_fst_zip.
Qed.

(** A block of the fitter touches only the features of its property, and
    nothing at all when there is no data. *)
Lemma fit_property_other (comps : list string) (phase_name : string)
    (c : configuration) (symmetry : option (list (list nat)))
    (datasets : list dataset) (features : list (string * list expr))
    (endmembers : option endmember_map) (prop : string) (fixed : list string)
    (parameters parameters' : list (expr * F)) (f : expr) :
  fit_property_ comps phase_name c symmetry datasets features endmembers
                prop fixed parameters = Ok parameters' ->
  _get_data comps phase_name c symmetry datasets prop = Ok []
  \/ (forall pf, dict_get features prop = Some pf -> f ∉ pf) ->
  dict_get parameters' f = dict_get parameters f.
Proof.
  unfold fit_property. intros H Hcase.
  apply rbind_Ok in H as (desired & Hdata & H).
  destruct Hcase as [Hnone|Hother].
  - rewrite Hnone in Hdata. injection Hdata as <-. by injection H as <-.
  - destruct desired as [|d desired]; [by injection H as <-|].
    apply rbind_Ok in H as (pf & Hpf & H).
    apply rbind_Ok in H as (y & _ & H).
    apply rbind_Ok in H as (fitted & Hfit & H). injection H as <-.
    apply dict_get_update_other. intros Hf.
    eapply fit_parameters_keys in Hf; [|exact Hfit].
    unfold dict_getitem in Hpf. destruct (dict_get features prop) as [pf'|] eqn:Hg; [|done].
    injection Hpf as ->. by apply (Hother pf).
Qed.

(** A block of the fitter without data returns the parameters it was
    given. *)
Lemma fit_property_no_data (comps : list string) (phase_name : string)
    (c : configuration) (symmetry : option (list (list nat)))
    (datasets : list dataset) (features : list (string * list expr))
    (endmembers : option endmember_map) (prop : string) (fixed : list string)
    (parameters : list (expr * F)) :
  _get_data comps phase_name c symmetry datasets prop = Ok [] ->
  fit_property_ comps phase_name c symmetry datasets features endmembers
                prop fixed parameters = Ok parameters.
Proof using Type. intros Hnone. unfold fit_property. by rewrite Hnone. Qed.

(** C9. When the query is false on every stored record, [_get_data]
    returns the empty list and raises nothing.  The block of
    [fit_formation_energy] for that property then returns the parameters
    it was given, whatever they are, so that the function is the one with
    that block left out; it returns the map of zeros when the other two
    properties have no data either; and in every map it returns, every
    feature of the property, unless another property has the same
    feature, still has the coefficient zero. *)
Theorem fit_formation_energy_no_data (comps : list string) (phase_name : string)
    (c : configuration) (symmetry : option (list (list nat)))
    (datasets : list dataset) (prop : string) :
  (forall record, record ∈ datasets ->
     query comps phase_name c symmetry prop record = Ok false) ->
  _get_data comps phase_name c symmetry datasets prop = Ok []
  /\ (forall features endmembers fixed parameters,
        fit_property_ comps phase_name c symmetry datasets features endmembers
                      prop fixed parameters = Ok parameters)
  /\ forall features endmembers prepared,
       prepare_features_ c features endmembers = Ok prepared ->
       let fit q fixed parameters :=
         if decide (q = prop) then Ok parameters
         else fit_property_ comps phase_name c symmetry datasets prepared endmembers
                            q fixed parameters in
       fit_formation_energy_ comps phase_name c symmetry datasets features endmembers
       = (p1 ← fit "CPM_FORM" [] (zero_parameters zero prepared);
          p2 ← fit "SM_FORM" ["CPM_FORM"] p1;
          fit "HM_FORM" ["CPM_FORM"; "SM_FORM"] p2)
       /\ ((forall q record, q ∈ ["CPM_FORM"; "SM_FORM"; "HM_FORM"] ->
              record ∈ datasets ->
              query comps phase_name c symmetry q record = Ok false) ->
           fit_formation_energy_ comps phase_name c symmetry datasets features endmembers
           = Ok (zero_parameters zero prepared))
       /\ forall parameters pf f,
            prop ∈ ["CPM_FORM"; "SM_FORM"; "HM_FORM"] ->
            fit_formation_energy_ comps phase_name c symmetry datasets features endmembers
            = Ok parameters ->
            dict_get prepared prop = Some pf -> f ∈ pf ->
            (forall other qf, other ∈ ["CPM_FORM"; "SM_FORM"; "HM_FORM"] ->
               other <> prop -> dict_get prepared other = Some qf -> f ∉ qf) ->
            dict_get parameters f = Some zero.
Proof using Type.
  intros Hnone. pose proof (get_data_none _ _ _ _ _ _ Hnone) as Hempty.
  split; [done|]. split.
  { intros features endmembers fixed parameters. by apply fit_property_no_data. }
  intros features endmembers prepared Hprep fit. split; [|split].
  - unfold fit_formation_energy. rewrite Hprep. cbn [mbind result_bind].
    assert (forall q fixed parameters,
              fit_property_ comps phase_name c symmetry datasets prepared endmembers
                            q fixed parameters = fit q fixed parameters) as Hfit.
    { intros q fixed parameters. unfold fit.
      destruct (decide (q = prop)) as [->|]; [|done].
      by apply fit_property_no_data. }
    rewrite Hfit. destruct (fit "CPM_FORM" [] _) as [p1|]; [|done].
    cbn [mbind result_bind]. rewrite Hfit.
    destruct (fit "SM_FORM" _ p1) as [p2|]; [|done].
    cbn [mbind result_bind]. apply Hfit.
  - intros Hall. unfold fit_formation_energy. rewrite Hprep. cbn [mbind result_bind].
    assert (forall q, q ∈ ["CPM_FORM"; "SM_FORM"; "HM_FORM"] ->
              _get_data comps phase_name c symmetry datasets q = Ok []) as Hq.
    { intros q Hq. apply get_data_none. intros record Hr. by apply Hall. }
    rewrite fit_property_no_data by (apply Hq; repeat constructor).
    cbn [mbind result_bind].
    rewrite fit_property_no_data by (apply Hq; repeat constructor).
    cbn [mbind result_bind].
    apply fit_property_no_data, Hq. repeat constructor.
  - intros parameters pf f Hprop Hfit Hpf Hf Hother.
    unfold fit_formation_energy in Hfit. rewrite Hprep in Hfit. cbn in Hfit.
    apply rbind_Ok in Hfit as (p1 & H1 & Hfit).
    apply rbind_Ok in Hfit as (p2 & H2 & H3).
    assert (forall q, q ∈ ["CPM_FORM"; "SM_FORM"; "HM_FORM"] ->
      _get_data comps phase_name c symmetry datasets q = Ok []
      \/ (forall qf, dict_get prepared q = Some qf -> f ∉ qf)) as Hcase.
    { intros q Hq. destruct (decide (q = prop)) as [->|Hne]; [by left|].
      right. intros qf. by apply Hother. }
    rewrite (fit_property_other _ _ _ _ _ _ _ _ _ _ _ f H3),
            (fit_property_other _ _ _ _ _ _ _ _ _ _ _ f H2),
            (fit_property_other _ _ _ _ _ _ _ _ _ _ _ f H1).
    + apply dict_get_update_const. by eapply dict_get_elem_of.
    + apply Hcase. repeat constructor.
    + apply Hcase. repeat constructor.
    + apply Hcase. repeat constructor.
Qed.

(** C5. For a configuration with a sequence occupant and no endmember
    energies, [fit_formation_energy] raises [ValueError], whatever the
    datasets hold and whatever the regression would return: the test
    comes before the first [_get_data] and the first [_fit_parameters].
    The function is given no database; run where [phase_fit] runs it, it
    leaves the database as it found it. *)
Theorem fit_formation_energy_requires_endmembers (comps : list string)
    (phase_name : string) (c : configuration) (symmetry : option (list (list nat)))
    (datasets : list dataset) (features : option (list (string * list expr))) :
  existsb is_sequence c = true ->
  fit_formation_energy_ comps phase_name c symmetry datasets features None
  = Raise ValueError
  /\ forall db : database expr,
       db_lift (fit_formation_energy_ comps phase_name c symmetry datasets features None)
               db
       = (Raise ValueError, db).
Proof.
  intros Hpair.
  assert (fit_formation_energy_ comps phase_name c symmetry datasets features None
          = Raise ValueError) as Hraise.
  { unfold fit_formation_energy, prepare_features. by rewrite Hpair. }
  split; [done|]. intros db. unfold db_lift. by rewrite Hraise.
Qed.
End FitFormationEnergyFacts.

Lemma fit_formation_energy_requires_endmembers_witness :
  existsb is_sequence [Species "A"; Tup ["B"; "C"]] = true
  /\ example_fit_formation_energy ["A"; "B"; "C"] "LIQUID" [Species "A"; Tup ["B"; "C"]]
       (Some [[0; 1]]) [heat_capacity_record] None None
     = Raise ValueError
  /\ forall db : database string,
       db_lift (example_fit_formation_energy ["A"; "B"; "C"] "LIQUID"
                  [Species "A"; Tup ["B"; "C"]] (Some [[0; 1]])
                  [heat_capacity_record] None None) db
       = (Raise ValueError, db).
Proof.
  split; [reflexivity|].
  apply (fit_formation_energy_requires_endmembers (F := xnum) (expr := string)).
  reflexivity.
Defined.

Lemma fit_formation_energy_no_data_witness :
  let comps := ["A"; "B"] in
  let c := [Species "B"] in
  (forall record, record ∈ [heat_capacity_record] ->
     query comps "LIQUID" c None "SM_FORM" record = Ok false)
  /\ _get_data comps "LIQUID" c None [heat_capacity_record] "SM_FORM" = Ok []
  /\ example_fit_formation_energy comps "LIQUID" c None [heat_capacity_record] None None
     = Ok [("T*log(T)", Num 4); ("T**2", Num 0); ("T**(-1)", Num 0);
           ("T**3", Num 0); ("T", Num 0); ("1", Num 0)]
  /\ dict_get [("T*log(T)", Num 4); ("T**2", Num 0); ("T**(-1)", Num 0);
               ("T**3", Num 0); ("T", Num 0); ("1", Num 0)] "T" = Some (Num 0).
Proof.
  cbv zeta.
  assert (forall record, record ∈ [heat_capacity_record] ->
            query ["A"; "B"] "LIQUID" [Species "B"] None "SM_FORM" record = Ok false) as Hq.
  { intros record Hr. apply list_elem_of_singleton in Hr as ->. reflexivity. }
  split; [exact Hq|].
  destruct (fit_formation_energy_no_data (F := xnum) (expr := string)
              (Num 0) xadd xsub xmul xof_int xltb (fun _ => false) xlog scale_first_column
              (fun q => Num (Qnum q / Zpos (Qden q)))
              String.append "T*log(T)" "T**2" "T**(-1)" "T**3" "T" "1"
              ["YS"; "YS*Z"; "YS*Z**2"; "YS*Z**3"]
              example_feature_matrix (fun _ _ _ _ _ => Ok [Num 0])
              ["A"; "B"] "LIQUID" [Species "B"] None [heat_capacity_record] "SM_FORM" Hq)
    as (Hempty & _ & Hskip).
  split; [exact Hempty|]. split; [reflexivity|].
  destruct (Hskip None None
              [("CPM_FORM", ["T*log(T)"; "T**2"; "T**(-1)"; "T**3"]);
               ("SM_FORM", ["T"]); ("HM_FORM", ["1"])] eq_refl)
    as (_ & _ & Hzero).
  apply (Hzero _ ["T"] "T").
  - apply (bool_decide_unpack _). reflexivity.
  - reflexivity.
  - reflexivity.
  - apply list_elem_of_singleton. reflexivity.
  - intros other qf Hother Hne Hget.
    apply elem_of_cons in Hother as [->|Hother]; cbn in Hget.
    { injection Hget as <-. apply (bool_decide_unpack _). reflexivity. }
    apply elem_of_cons in Hother as [->|Hother]; [done|].
    apply list_elem_of_singleton in Hother as ->.
    injection Hget as <-. apply (bool_decide_unpack _). reflexivity.
Defined.

(** C9 as stated does not hold of every store: with a record of the
    property and the components asked for whose solver block has no
    ['mode'], no record matches the query, and [_get_data] raises
    [KeyError] where the empty list was to be returned; so does
    [fit_formation_energy], in the block of that property. *)
Theorem get_data_unmatched_record_raises :
  let comps := ["A"; "B"] in
  let c := [Species "B"] in
  let datasets := [entropy_record_without_mode] in
  (forall record, record ∈ datasets ->
     query comps "LIQUID" c None "SM_FORM" record <> Ok true)
  /\ _get_data comps "LIQUID" c None datasets "SM_FORM" = Raise KeyError
  /\ _get_data comps "LIQUID" c None datasets "CPM_FORM" = Ok []
  /\ example_fit_formation_energy comps "LIQUID" c None datasets None None
     = Raise KeyError.
Proof.
  cbv zeta. split; [|split; [|split]]; try reflexivity.
  intros record Hr. apply list_elem_of_singleton in Hr as ->. discriminate.
Qed.

(** ** [phase_fit] and [setup_context] *)

Lemma generate_symmetric_group_total (c : configuration)
    (symmetry : option (list (list nat))) :
  _generate_symmetric_group c symmetry = Some (generate_symmetric_group c symmetry).
Proof.
  unfold generate_symmetric_group. destruct symmetry as [symm|]; [|done].
  by destruct (generate_symmetric_group_terminates c symm) as (r & -> & _).
Qed.

Section PhaseFitFacts.
Context {expr : Type}.

Lemma extends_refl (db : database expr) : extends db db.
Proof. repeat split. exists []. by rewrite app_nil_r. Qed.

Lemma extends_trans (db1 db2 db3 : database expr) :
  extends db1 db2 -> extends db2 db3 -> extends db1 db3.
Proof.
  intros (He1 & Hs1 & new1 & Hp1) (He2 & Hs2 & new2 & Hp2).
  repeat split; [congruence..|].
  exists (new1 ++ new2). by rewrite Hp2, Hp1, app_assoc.
Qed.

Lemma append_only_ret {A} (a : A) : append_only (expr := expr) (db_ret a).
Proof. intros db. apply extends_refl. Qed.

Lemma append_only_lift {A} (r : result A) : append_only (expr := expr) (db_lift r).
Proof. intros db. apply extends_refl. Qed.

Lemma append_only_bind {A B} (m : @dbM expr A) (k : A -> @dbM expr B) :
  append_only m -> (forall a, append_only (k a)) -> append_only (db_bind m k).
Proof.
  intros Hm Hk db. unfold db_bind. specialize (Hm db).
  destruct (m db) as [[a|e] db']; cbn in *; [|done].
  eapply extends_trans; [exact Hm | apply Hk].
Qed.

Lemma append_only_for {A} (l : list A) (body : A -> @dbM expr unit) :
  (forall a, append_only (body a)) -> append_only (db_for l body).
Proof.
  intros Hbody. induction l as [|a l IH]; cbn.
  - apply append_only_ret.
  - apply append_only_bind; [apply Hbody | by intros _].
Qed.

Lemma append_only_fold {A S} (l : list A) (s : S) (body : S -> A -> @dbM expr S) :
  (forall s a, append_only (body s a)) -> append_only (db_fold l s body).
Proof.
  intros Hbody. revert s. induction l as [|a l IH]; intros s; cbn.
  - apply append_only_ret.
  - apply append_only_bind; [apply Hbody | apply IH].
Qed.

Lemma append_only_add_parameter (param_type phase_name : string)
    (constituents : list (list string)) (order : nat) (e : expr) :
  append_only (add_parameter param_type phase_name constituents order e).
Proof. intros db. repeat split. cbn. eauto. Qed.
End PhaseFitFacts.

Section DatabaseOwnership.
Context {F expr models : Type} `{EqDecision expr}.
Variables (zero : F) (add sub mul : F -> F -> F) (of_int : nat -> F).
Variables (ltb : F -> F -> bool) (isnan : F -> bool).
Variable log : F -> F.
Variable lstsq : list (list F) -> list F -> list F.
Variable of_Q : Q -> F.
Variable expr_mul : expr -> expr -> expr.
Variables (T_log_T T_squared T_inverse T_cubed T_linear S_One : expr).
Variable redlich_kister_features : list expr.
Variable _build_feature_matrix : string -> list expr -> list dataset -> list (list F).
Variable formation_response :
  string -> list dataset -> option (@endmember_map expr) -> list expr -> list (expr * F)
  -> result (list F).
Variable endmember_expression : list (expr * F) -> configuration -> list Q -> expr.
Variable interaction_polynomials : list (expr * F) -> list (option expr).
Variable database_symbols_to_fit : database expr -> list string.
Variable build_models : database expr -> list string -> list string -> list dataset -> models.

Abbreviation phase_fit_ :=
  (phase_fit zero add sub mul of_int ltb isnan log lstsq of_Q expr_mul
     T_log_T T_squared T_inverse T_cubed T_linear S_One redlich_kister_features
     _build_feature_matrix formation_response endmember_expression
     interaction_polynomials).

(** [phase_fit] only ever adds parameters. *)
Lemma phase_fit_append_only (phase_name : string) (symmetry : option (list (list nat)))
    (subl_model : list (list string)) (site_ratios : list Q) (datasets : list dataset) :
  append_only (phase_fit_ phase_name symmetry subl_model site_ratios datasets).
Proof.
  unfold phase_fit.
  apply append_only_bind; [apply append_only_lift|]. intros endmembers.
  apply append_only_bind.
  { apply append_only_fold. intros em_dict endmember db.
    unfold fit_endmember.
    apply append_only_bind; [apply append_only_lift|]. intros parameters.
    apply append_only_bind; [apply append_only_lift|]. intros symmetric.
    apply append_only_fold. intros em_dict' em.
    apply append_only_bind; [apply append_only_add_parameter|].
    intros _. apply append_only_ret. }
  intros em_dict.
  apply append_only_bind; [apply append_only_lift|]. intros bin_interactions.
  apply append_only_for. intros interaction db.
  unfold fit_interaction.
  apply append_only_bind; [apply append_only_lift|]. intros parameters.
  apply append_only_bind; [apply append_only_lift|]. intros symmetric.
  apply append_only_for. intros [degree [e|]].
  - apply append_only_for. intros syminter. apply append_only_add_parameter.
  - apply append_only_ret.
Qed.

(** [setup_context] works on a copy: the object behind the reference it
    was given is afterwards what it was. *)
Lemma setup_context_frame (dbf : nat) (db : database expr) (datasets : list dataset)
    (symbols_to_fit : option (list string)) (h : gmap nat (database expr)) :
  h !! dbf = Some db ->
  (setup_context database_symbols_to_fit build_models dbf datasets symbols_to_fit h).2
    !! dbf = Some db.
Proof.
  intros Hdb. unfold setup_context, deepcopy. rewrite Hdb.
  assert (fresh (dom h) <> dbf) as Hfresh.
  { intros Heq. pose proof (is_fresh (dom h)) as Hf. rewrite Heq in Hf.
    apply Hf. by eapply elem_of_dom_2. }
  unfold at_reference. rewrite lookup_insert_eq.
  match goal with |- context [let '(r, db') := ?m in _] => destruct m as [r db'] end.
  cbn. rewrite lookup_insert_ne by done. by rewrite lookup_insert_ne.
Qed.

(** C10, as the code has it.  [setup_context] copies the database it is
    given before it replaces symbols, and leaves the caller's object
    unchanged.  [phase_fit] works in place on the database it is given
    (its docstring: the database to add parameters to; [fit] hands it one
    it has just created): it only appends parameters, so a parameter that
    is in the database stays there as it is, also when the run ends in an
    exception. *)
Theorem database_copy_and_append (dbf : nat) (db : database expr) (h : gmap nat (database expr))
    (datasets : list dataset) (symbols_to_fit : option (list string))
    (phase_name : string) (symmetry : option (list (list nat)))
    (subl_model : list (list string)) (site_ratios : list Q) :
  h !! dbf = Some db ->
  (setup_context database_symbols_to_fit build_models dbf datasets symbols_to_fit h).2
    !! dbf = Some db
  /\ exists db',
       (at_reference dbf (phase_fit_ phase_name symmetry subl_model site_ratios datasets)
                     h).2 !! dbf = Some db'
       /\ extends db db'.
Proof.
  intros Hdb. split; [by apply setup_context_frame|].
  unfold at_reference. rewrite Hdb.
  pose proof (phase_fit_append_only phase_name symmetry subl_model site_ratios
                datasets db) as Hext.
  destruct (phase_fit_ phase_name symmetry subl_model site_ratios datasets db)
    as [r db'].
  exists db'. cbn in *. by rewrite lookup_insert_eq.
Qed.
End DatabaseOwnership.

(** C10 as stated does not hold of [phase_fit]: a fitting run on a
    one-species phase with no data changes the database object of the
    caller, which gains a ["G"] parameter. *)
Lemma phase_fit_changes_caller_database :
  let h : gmap nat (database string) := {[0 := empty_database]} in
  let run := at_reference 0 (example_phase_fit "LIQUID" (Some []) [["A"]] [1%Q] []) h in
  run.1 = Ok tt
  /\ run.2 !! 0 = Some (mk_database ["A"] []
                          [mk_parameter "G" "LIQUID" [["A"]] 0 "GHSER"])
  /\ run.2 !! 0 <> h !! 0.
Proof.
  cbv zeta. split; [reflexivity|]. split; [reflexivity|].
  intros H. vm_compute in H. discriminate H.
Qed.

Lemma database_copy_and_append_witness :
  let h : gmap nat (database string) := {[0 := mk_database ["A"] [("VV0001", Piecewise ["x"])] []]} in
  let db := mk_database ["A"] [("VV0001", Piecewise ["x"])] [] in
  h !! 0 = Some db
  /\ (setup_context (fun _ => ["VV0001"]) (fun _ _ _ _ => tt) 0 [] None h).2 !! 0 = Some db
  /\ exists db',
       (at_reference 0 (example_phase_fit "LIQUID" (Some []) [["A"]] [1%Q] []) h).2 !! 0
       = Some db'
       /\ extends db db'.
Proof.
  cbv zeta. split; [reflexivity|].
  apply (database_copy_and_append (F := xnum) (expr := string) (models := unit)).
  reflexivity.
Defined.
